(** * MJPEG relay: frame extraction, latest-frame cache and broadcast tick

    Shallow embedding of [server.mjs] (the MJPEG-only variant and its
    Socket.IO sibling): the TCP [data] handler with its two framing modes,
    [handleFrame], the broadcast [setInterval] callback and the registry of
    streaming clients. *)

From Stdlib Require Import List ZArith Lia Bool.
From Stdlib.Strings Require Import Byte.
From Equations Require Import Equations.
From Equations.Prop Require Import Logic.
From stdpp Require gmap.
Import ListNotations.
Local Open Scope Z_scope.

(** ** Node [Buffer] as a list of bytes *)

Module Buf.

Definition Buffer := list byte.

(** [buffer.length] *)
Definition len (b : Buffer) : Z := Z.of_nat (length b).

(** Index normalisation shared by [slice]'s two arguments: a negative index
    counts from the end, and the result is clamped to [0, length]. *)
Definition clamp (b : Buffer) (i : Z) : Z :=
  if i <? 0 then Z.max 0 (len b + i) else Z.min i (len b).

(** [buffer.slice(start, end)] *)
Definition slice (b : Buffer) (s e : Z) : Buffer :=
  let s' := clamp b s in
  let e' := clamp b e in
  firstn (Z.to_nat (e' - s')) (skipn (Z.to_nat s') b).

(** [buffer.slice(start)]: [end] defaults to [buffer.length]. *)
Definition slice_from (b : Buffer) (s : Z) : Buffer := slice b s (len b).

(** Does [pat] occur at the very start of [b]? *)
Fixpoint starts_with (pat b : Buffer) : bool :=
  match pat, b with
  | [], _ => true
  | _ :: _, [] => false
  | p :: pat', x :: b' => Byte.eqb p x && starts_with pat' b'
  end.

(** Forward scan for the first occurrence of [pat]: its offset from the head
    of [b], when there is one. *)
Fixpoint find (pat b : Buffer) : option nat :=
  match b with
  | [] => None
  | _ :: b' => if starts_with pat b then Some 0%nat else option_map S (find pat b')
  end.

(** [buffer.indexOf(pat, byteOffset)] for a non-empty [pat]: the first index
    [>= byteOffset] where [pat] occurs, or [-1]. A negative [byteOffset]
    counts from the end of the buffer. *)
Definition indexOf (b pat : Buffer) (from : Z) : Z :=
  let from' := if from <? 0 then Z.max 0 (len b + from) else from in
  match find pat (skipn (Z.to_nat from') b) with
  | Some k => from' + Z.of_nat k
  | None => -1
  end.

(** [buffer.readUInt32BE(0)] on a buffer of at least 4 bytes. *)
Definition readUInt32BE (b : Buffer) : Z :=
  match b with
  | b0 :: b1 :: b2 :: b3 :: _ =>
      Z.of_N (Byte.to_N b0) * 2 ^ 24 + Z.of_N (Byte.to_N b1) * 2 ^ 16
      + Z.of_N (Byte.to_N b2) * 2 ^ 8 + Z.of_N (Byte.to_N b3)
  | _ => 0
  end.

End Buf.
Import Buf.

(** ** The drain loops of the [data] handler *)

(** One pass through the body of a [for (;;)] loop: it either reaches a
    [break], or runs to the end and has handed one frame to [handleFrame]. *)
Inductive Iter (St : Type) : Type :=
| Break (s : St)
| Continue (s : St) (frame : Buffer).
Arguments Break {St} s.
Arguments Continue {St} s frame.

Definition SOI : Buffer := [xff; xd8].
Definition EOI : Buffer := [xff; xd9].

(** The two variables each connection's closure owns. *)
Record Conn : Type := { buffer : Buffer; pendingLen : option Z }.

(** [let buffer = Buffer.alloc(0); let pendingLen = null;] *)
Definition new_conn : Conn := {| buffer := []; pendingLen := None |}.

Module Marker.

(** Body of the [jpeg-markers] loop, which reads and writes only [buffer]. *)
Definition iter (buf : Buffer) : Iter Buffer :=
  let start := indexOf buf SOI 0 in
  if start =? -1 then
    Break (if len buf >? 5 * 1024 * 1024
           then slice_from buf (-1024 * 1024) else buf)
  else
    let end_ := indexOf buf EOI (start + 2) in
    if end_ =? -1 then Break buf
    else Continue (slice_from buf (end_ + 2)) (slice buf start (end_ + 2)).

End Marker.

Module LenPrefix.

(** Second half of the loop body, once [pendingLen] is known. *)
Definition extract (buf : Buffer) (pending : Z) : Iter Conn :=
  if len buf <? pending then Break {| buffer := buf; pendingLen := Some pending |}
  else Continue {| buffer := slice_from buf pending; pendingLen := None |}
                (slice buf 0 pending).

(** Body of the [len-prefix] loop. *)
Definition iter (c : Conn) : Iter Conn :=
  match pendingLen c with
  | None =>
      if len (buffer c) <? 4 then Break c
      else extract (slice_from (buffer c) 4) (readUInt32BE (buffer c))
  | Some pending => extract (buffer c) pending
  end.

(** What bounds the loop: bytes left, and a pending length still to serve. *)
Definition measure (c : Conn) : nat :=
  2 * length (buffer c) + match pendingLen c with Some _ => 1 | None => 0 end.

End LenPrefix.

(** ** The latest-frame cache *)

Record Cache : Type :=
  { latestFrame : option Buffer; framesReceived : Z; bytesLastFrame : Z }.

(** [latestFrame = null; framesReceived = 0; bytesLastFrame = 0] *)
Definition empty_cache : Cache :=
  {| latestFrame := None; framesReceived := 0; bytesLastFrame := 0 |}.

(** [handleFrame(frame)]; [None] stands for a [null] argument. *)
Definition handleFrame (frame : option Buffer) (c : Cache) : Cache :=
  match frame with
  | None => c
  | Some f =>
      if len f <? 128 then c
      else {| latestFrame := Some f;
              framesReceived := framesReceived c + 1;
              bytesLastFrame := len f |}
  end.

(** ** Facts about buffers *)

Section BufferFacts.

Implicit Types b x y pat : Buffer.

Lemma len_nonneg b : 0 <= len b.
Proof. unfold len. lia. Qed.

Lemma len_app x y : len (x ++ y) = len x + len y.
Proof. unfold len. rewrite length_app. lia. Qed.

Lemma slice_in_range b s e :
  0 <= s <= e -> e <= len b ->
  slice b s e = firstn (Z.to_nat (e - s)) (skipn (Z.to_nat s) b).
Proof.
  intros Hs He. unfold slice, clamp.
  destruct (Z.ltb_spec s 0); [lia|].
  destruct (Z.ltb_spec e 0); [lia|].
  rewrite !Z.min_l by lia. reflexivity.
Qed.

Lemma slice_from_in_range b s :
  0 <= s <= len b -> slice_from b s = skipn (Z.to_nat s) b.
Proof.
  intros Hs. unfold slice_from. rewrite slice_in_range by lia.
  apply firstn_all2. rewrite length_skipn. unfold len in *. lia.
Qed.

Lemma slice_from_tail b n :
  0 < n <= len b -> slice_from b (- n) = skipn (Z.to_nat (len b - n)) b.
Proof.
  intros Hn. unfold slice_from, slice, clamp.
  destruct (Z.ltb_spec (- n) 0); [|lia].
  destruct (Z.ltb_spec (len b) 0); [pose proof (len_nonneg b); lia|].
  rewrite Z.max_r, Z.min_l by lia.
  replace (len b + - n) with (len b - n) by lia.
  apply firstn_all2. rewrite length_skipn. unfold len in *. lia.
Qed.

Lemma starts_with_length pat b :
  starts_with pat b = true -> (length pat <= length b)%nat.
Proof.
  revert b. induction pat as [|p pat IH]; intros [|x b]; simpl; try lia; try discriminate.
  intros H. apply andb_prop in H as [_ H]. apply IH in H. lia.
Qed.

Lemma starts_with_app_long pat b y :
  (length pat <= length b)%nat -> starts_with pat (b ++ y) = starts_with pat b.
Proof.
  revert b. induction pat as [|p pat IH]; intros [|x b]; simpl; try lia; try reflexivity.
  intros H. rewrite IH by lia. reflexivity.
Qed.

Lemma starts_with_app pat b y :
  starts_with pat b = true -> starts_with pat (b ++ y) = true.
Proof.
  intros H. rewrite starts_with_app_long; [assumption|].
  now apply starts_with_length.
Qed.

Lemma find_Some_lt pat b k :
  find pat b = Some k -> starts_with pat (skipn k b) = true.
Proof.
  revert k. induction b as [|x b IH]; intros k; simpl; [discriminate|].
  destruct (starts_with pat (x :: b)) eqn:E.
  - intros [= <-]. exact E.
  - destruct (find pat b) as [j|]; simpl; [|discriminate].
    intros [= <-]. simpl. now apply IH.
Qed.

Lemma find_Some_inside pat b k : find pat b = Some k -> (k < length b)%nat.
Proof.
  revert k. induction b as [|x b IH]; intros k; simpl; [discriminate|].
  destruct (starts_with pat (x :: b)).
  - intros [= <-]. lia.
  - destruct (find pat b) as [j|]; simpl; [|discriminate].
    intros [= <-]. specialize (IH j eq_refl). lia.
Qed.

Lemma find_Some_bound pat b k :
  find pat b = Some k -> (k + length pat <= length b)%nat.
Proof.
  intros H. pose proof (find_Some_inside _ _ _ H) as Hk.
  apply find_Some_lt in H. apply starts_with_length in H.
  rewrite length_skipn in H. lia.
Qed.

Lemma skipn_past {A : Type} (p l : list A) (k : nat) :
  skipn (length p + k) (p ++ l) = skipn k l.
Proof.
  rewrite skipn_app, skipn_all2 by lia.
  now replace (length p + k - length p)%nat with k by lia.
Qed.

Lemma slice_length_le b s e : (length (slice b s e) <= length b)%nat.
Proof.
  unfold slice. rewrite length_firstn, length_skipn. lia.
Qed.

Lemma readUInt32BE_range b : 0 <= readUInt32BE b < 2 ^ 32.
Proof.
  unfold readUInt32BE.
  destruct b as [|b0 [|b1 [|b2 [|b3 ?]]]]; try lia.
  pose proof (Byte.to_N_bounded b0). pose proof (Byte.to_N_bounded b1).
  pose proof (Byte.to_N_bounded b2). pose proof (Byte.to_N_bounded b3).
  lia.
Qed.

Lemma indexOf_unfold b pat from :
  0 <= from ->
  indexOf b pat from =
    match find pat (skipn (Z.to_nat from) b) with
    | Some k => from + Z.of_nat k
    | None => -1
    end.
Proof.
  intros H. unfold indexOf. destruct (Z.ltb_spec from 0); [lia|reflexivity].
Qed.

End BufferFacts.

(** The loop body in terms of list operations: where the markers are found
    decides the outcome. *)
Lemma marker_iter_unfold (buffer : Buffer) :
  Marker.iter buffer =
    match find SOI buffer with
    | None =>
        Break (if len buffer >? 5 * 1024 * 1024
               then skipn (Z.to_nat (len buffer - 1024 * 1024)) buffer
               else buffer)
    | Some s =>
        match find EOI (skipn (s + 2) buffer) with
        | None => Break buffer
        | Some e =>
            Continue (skipn (s + 2 + e + 2) buffer)
                     (firstn (2 + e + 2) (skipn s buffer))
        end
    end.
Proof.
  unfold Marker.iter. rewrite indexOf_unfold by lia.
  change (skipn (Z.to_nat 0) buffer) with buffer.
  destruct (find SOI buffer) as [s|] eqn:Es.
  - destruct (Z.eqb_spec (0 + Z.of_nat s) (-1)); [lia|].
    rewrite indexOf_unfold by lia.
    replace (Z.to_nat (0 + Z.of_nat s + 2)) with (s + 2)%nat by lia.
    destruct (find EOI (skipn (s + 2) buffer)) as [e|] eqn:Ee.
    + destruct (Z.eqb_spec (0 + Z.of_nat s + 2 + Z.of_nat e) (-1)); [lia|].
      apply find_Some_bound in Ee. rewrite length_skipn in Ee.
      change (length EOI) with 2%nat in Ee.
      rewrite slice_from_in_range, slice_in_range by (unfold len; lia).
      f_equal; f_equal; try lia. f_equal. lia.
    + destruct (Z.eqb_spec (-1) (-1)); [reflexivity|lia].
  - simpl. destruct (len buffer >? 5 * 1024 * 1024) eqn:E; [|reflexivity].
    apply Z.gtb_lt in E.
    replace (-1024 * 1024) with (- (1024 * 1024)) by lia.
    rewrite slice_from_tail by lia. reflexivity.
Qed.

Lemma marker_iter_consumes (buffer buffer' frame : Buffer) :
  Marker.iter buffer = Continue buffer' frame ->
  (length buffer' + 4 <= length buffer)%nat.
Proof.
  rewrite marker_iter_unfold.
  destruct (find SOI buffer) as [s|]; [|discriminate].
  destruct (find EOI (skipn (s + 2) buffer)) as [e|] eqn:Ee; [|discriminate].
  intros [= <- _]. apply find_Some_bound in Ee.
  rewrite length_skipn in *. simpl in Ee. lia.
Qed.

Module MarkerLoop.

(** The [jpeg-markers] [for (;;)] loop: the frames it hands to
    [handleFrame], in order, and the buffer it leaves. Each pass that does
    not [break] shortens the buffer, so the loop ends. *)
Equations? drain (buf : Buffer) : list Buffer * Buffer by wf (length buf) lt :=
  drain buf with inspect (Marker.iter buf) := {
    | exist _ (Break b) _ => ([], b)
    | exist _ (Continue b frame) E =>
        let r := drain b in (frame :: fst r, snd r) }.
Proof. apply marker_iter_consumes in E. lia. Qed.

End MarkerLoop.

(** The loop equation: [drain] is the [for (;;)] loop over [Marker.iter]. *)
Lemma marker_drain_unfold (buffer : Buffer) :
  MarkerLoop.drain buffer =
    match Marker.iter buffer with
    | Break b => ([], b)
    | Continue b frame =>
        (frame :: fst (MarkerLoop.drain b), snd (MarkerLoop.drain b))
    end.
Proof.
  rewrite MarkerLoop.drain_equation_1. unfold inspect.
  assert (H : forall (i : Iter Buffer) (e : Marker.iter buffer = i),
             MarkerLoop.drain_unfold_clause_1 buffer (exist _ i e) =
             match i with
             | Break b => ([], b)
             | Continue b frame =>
                 (frame :: fst (MarkerLoop.drain b), snd (MarkerLoop.drain b))
             end).
  { intros [b|b f] e; reflexivity. }
  apply H.
Qed.

(** Induction along the loop: to prove a property of a buffer, assume it for
    the buffer the next pass leaves. *)
Lemma marker_loop_ind (P : Buffer -> Prop) :
  (forall buf : Buffer,
     (forall b frame : Buffer, Marker.iter buf = Continue b frame -> P b) -> P buf) ->
  forall buf : Buffer, P buf.
Proof.
  intros step buf. remember (length buf) as m eqn:Hm. revert buf Hm.
  induction m as [m IH] using lt_wf_ind. intros buf ->.
  apply step. intros b frame E. apply marker_iter_consumes in E.
  apply (IH (length b)); [lia|reflexivity].
Qed.

(** *** The [len-prefix] loop *)

Lemma len_extract_unfold (buf : Buffer) (n : Z) :
  0 <= n ->
  LenPrefix.extract buf n =
    if len buf <? n then Break {| buffer := buf; pendingLen := Some n |}
    else Continue {| buffer := skipn (Z.to_nat n) buf; pendingLen := None |}
                  (firstn (Z.to_nat n) buf).
Proof.
  intros Hn. unfold LenPrefix.extract.
  destruct (Z.ltb_spec (len buf) n); [reflexivity|].
  rewrite slice_from_in_range, slice_in_range by lia.
  rewrite Z.sub_0_r. reflexivity.
Qed.

Lemma len_extract_shorter (buf : Buffer) (n : Z) (c : Conn) (frame : Buffer) :
  LenPrefix.extract buf n = Continue c frame ->
  pendingLen c = None /\ (length (buffer c) <= length buf)%nat.
Proof.
  unfold LenPrefix.extract. destruct (len buf <? n); [discriminate|].
  intros [= <- _]. simpl. split; [reflexivity|apply slice_length_le].
Qed.

Lemma len_iter_decreases (c c' : Conn) (frame : Buffer) :
  LenPrefix.iter c = Continue c' frame ->
  (LenPrefix.measure c' < LenPrefix.measure c)%nat.
Proof.
  unfold LenPrefix.iter, LenPrefix.measure.
  destruct (pendingLen c) as [n|].
  - intros H. apply len_extract_shorter in H as [-> H]. lia.
  - destruct (Z.ltb_spec (len (buffer c)) 4); [discriminate|].
    intros H0. apply len_extract_shorter in H0 as [-> H0].
    rewrite slice_from_in_range, length_skipn in H0 by lia.
    unfold len in *. lia.
Qed.

Module LenLoop.

(** The [len-prefix] [for (;;)] loop: the frames handed to [handleFrame], in
    order, and the [buffer] and [pendingLen] it leaves. *)
Equations? drain (c : Conn) : list Buffer * Conn by wf (LenPrefix.measure c) lt :=
  drain c with inspect (LenPrefix.iter c) := {
    | exist _ (Break c') _ => ([], c')
    | exist _ (Continue c' frame) E =>
        let r := drain c' in (frame :: fst r, snd r) }.
Proof. now apply len_iter_decreases in E. Qed.

End LenLoop.

Lemma len_drain_unfold (c : Conn) :
  LenLoop.drain c =
    match LenPrefix.iter c with
    | Break c' => ([], c')
    | Continue c' frame =>
        (frame :: fst (LenLoop.drain c'), snd (LenLoop.drain c'))
    end.
Proof.
  rewrite LenLoop.drain_equation_1. unfold inspect.
  assert (H : forall (i : Iter Conn) (e : LenPrefix.iter c = i),
             LenLoop.drain_unfold_clause_1 c (exist _ i e) =
             match i with
             | Break c' => ([], c')
             | Continue c' frame =>
                 (frame :: fst (LenLoop.drain c'), snd (LenLoop.drain c'))
             end).
  { intros [b|b f] e; reflexivity. }
  apply H.
Qed.

Lemma len_loop_ind (P : Conn -> Prop) :
  (forall c : Conn,
     (forall (c' : Conn) (frame : Buffer),
        LenPrefix.iter c = Continue c' frame -> P c') -> P c) ->
  forall c : Conn, P c.
Proof.
  intros step c. remember (LenPrefix.measure c) as m eqn:Hm. revert c Hm.
  induction m as [m IH] using lt_wf_ind. intros c ->.
  apply step. intros c' frame E.
  exact (IH _ (len_iter_decreases _ _ _ E) c' eq_refl).
Qed.

(** ** The [data] handler *)

(** [FRAME_MODE === "len-prefix"] selects the first loop; every other value,
    ["jpeg-markers"] included, the second. *)
Inductive FrameMode : Type := len_prefix | jpeg_markers.

(** [buffer = Buffer.concat([buffer, chunk])] followed by the loop of the
    mode: the frames passed to [handleFrame], and the connection's variables
    afterwards. *)
Definition on_chunk (mode : FrameMode) (c : Conn) (chunk : Buffer)
  : list Buffer * Conn :=
  let buf := buffer c ++ chunk in
  match mode with
  | len_prefix => LenLoop.drain {| buffer := buf; pendingLen := pendingLen c |}
  | jpeg_markers =>
      let r := MarkerLoop.drain buf in
      (fst r, {| buffer := snd r; pendingLen := pendingLen c |})
  end.

(** The handler with its effect on the cache: [handleFrame] runs once per
    extracted frame, in extraction order. *)
Definition on_data (mode : FrameMode) (st : Conn * Cache) (chunk : Buffer)
  : Conn * Cache :=
  let r := on_chunk mode (fst st) chunk in
  (snd r, fold_left (fun cache f => handleFrame (Some f) cache) (fst r) (snd st)).

(** A connection receiving [chunks] one [data] event after the other: all
    frames extracted, in order, and the final connection variables. *)
Fixpoint run (mode : FrameMode) (c : Conn) (chunks : list Buffer)
  : list Buffer * Conn :=
  match chunks with
  | [] => ([], c)
  | chunk :: chunks' =>
      let r := on_chunk mode c chunk in
      let r' := run mode (snd r) chunks' in
      (fst r ++ fst r', snd r')
  end.

(** ** Chunk boundaries do not matter: [len-prefix] *)

(** A [pendingLen] is [null] or a length read by [readUInt32BE]. *)
Definition conn_ok (c : Conn) : Prop :=
  match pendingLen c with Some n => 0 <= n | None => True end.

(** More bytes arriving behind what the connection already buffers. *)
Definition more (c : Conn) (y : Buffer) : Conn :=
  {| buffer := buffer c ++ y; pendingLen := pendingLen c |}.

Lemma more_nil (c : Conn) : more c [] = c.
Proof. destruct c. unfold more. simpl. now rewrite app_nil_r. Qed.

Lemma more_more (c : Conn) (x y : Buffer) : more (more c x) y = more c (x ++ y).
Proof. unfold more. simpl. now rewrite app_assoc. Qed.

Lemma len_extract_ok (buf : Buffer) (n : Z) :
  0 <= n ->
  match LenPrefix.extract buf n with
  | Break c | Continue c _ => conn_ok c
  end.
Proof.
  intros Hn. unfold LenPrefix.extract.
  destruct (len buf <? n); unfold conn_ok; simpl; auto.
Qed.

Lemma len_iter_ok (c : Conn) :
  conn_ok c ->
  match LenPrefix.iter c with
  | Break c' | Continue c' _ => conn_ok c'
  end.
Proof.
  intros Hc. unfold LenPrefix.iter. unfold conn_ok in Hc.
  destruct (pendingLen c) as [n|] eqn:E.
  - now apply len_extract_ok.
  - destruct (len (buffer c) <? 4).
    + unfold conn_ok. now rewrite E.
    + apply len_extract_ok. apply readUInt32BE_range.
Qed.

Lemma len_extract_more (buf y : Buffer) (n : Z) :
  0 <= n ->
  match LenPrefix.extract buf n with
  | Continue c frame => LenPrefix.extract (buf ++ y) n = Continue (more c y) frame
  | Break c => LenPrefix.extract (buf ++ y) n = LenPrefix.extract (buffer c ++ y) n
  end.
Proof.
  intros Hn. rewrite (len_extract_unfold buf) by assumption.
  destruct (Z.ltb_spec (len buf) n) as [Hlt|Hge]; [reflexivity|].
  rewrite len_extract_unfold by assumption.
  rewrite len_app. pose proof (len_nonneg y).
  destruct (Z.ltb_spec (len buf + len y) n); [lia|].
  unfold more. simpl. unfold len in Hge.
  rewrite skipn_app, firstn_app.
  replace (Z.to_nat n - length buf)%nat with 0%nat by lia.
  simpl. now rewrite app_nil_r.
Qed.

Lemma readUInt32BE_app (b y : Buffer) :
  4 <= len b -> readUInt32BE (b ++ y) = readUInt32BE b.
Proof.
  unfold len. destruct b as [|b0 [|b1 [|b2 [|b3 ?]]]]; simpl length; try lia.
  reflexivity.
Qed.

Lemma len_iter_more (c : Conn) (y : Buffer) :
  conn_ok c ->
  match LenPrefix.iter c with
  | Continue c' frame => LenPrefix.iter (more c y) = Continue (more c' y) frame
  | Break c' => LenPrefix.iter (more c y) = LenPrefix.iter (more c' y)
  end.
Proof.
  intros Hc. unfold conn_ok in Hc. unfold LenPrefix.iter at 1.
  destruct (pendingLen c) as [n|] eqn:E.
  - pose proof (len_extract_more (buffer c) y n Hc) as H.
    unfold LenPrefix.extract at 1 in H. unfold LenPrefix.extract at 1.
    destruct (len (buffer c) <? n).
    + unfold LenPrefix.iter, more. simpl. now rewrite E.
    + unfold LenPrefix.iter at 1. unfold more at 1. simpl. now rewrite E.
  - destruct (Z.ltb_spec (len (buffer c)) 4) as [Hlt|Hge]; [reflexivity|].
    pose proof (readUInt32BE_range (buffer c)) as [Hn _].
    pose proof (len_extract_more (slice_from (buffer c) 4) y _ Hn) as H.
    assert (Hi : LenPrefix.iter (more c y) =
                 LenPrefix.extract (slice_from (buffer c) 4 ++ y)
                                   (readUInt32BE (buffer c))).
    { unfold LenPrefix.iter, more. simpl. rewrite E, len_app.
      pose proof (len_nonneg y).
      destruct (Z.ltb_spec (len (buffer c) + len y) 4); [lia|].
      rewrite readUInt32BE_app by assumption.
      rewrite !slice_from_in_range by (rewrite ?len_app; lia).
      rewrite skipn_app. unfold len in Hge.
      replace (Z.to_nat 4 - length (buffer c))%nat with 0%nat by lia.
      reflexivity. }
    rewrite Hi. unfold LenPrefix.extract at 1 in H. unfold LenPrefix.extract at 1.
    destruct (len (slice_from (buffer c) 4) <? readUInt32BE (buffer c)).
    + unfold LenPrefix.iter, more. simpl. exact H.
    + exact H.
Qed.

(** Draining after more bytes arrived is draining what was there, then
    draining again with the new bytes behind what was left. *)
Lemma len_drain_more (c : Conn) (y : Buffer) :
  conn_ok c ->
  LenLoop.drain (more c y) =
    (fst (LenLoop.drain c) ++ fst (LenLoop.drain (more (snd (LenLoop.drain c)) y)),
     snd (LenLoop.drain (more (snd (LenLoop.drain c)) y))).
Proof.
  induction c as [c IH] using len_loop_ind. intros Hc.
  pose proof (len_iter_more c y Hc) as Hi.
  pose proof (len_iter_ok c Hc) as Hok.
  rewrite (len_drain_unfold c).
  destruct (LenPrefix.iter c) as [c'|c' frame] eqn:E.
  - simpl. rewrite (len_drain_unfold (more c y)), Hi, <- len_drain_unfold.
    now destruct (LenLoop.drain (more c' y)).
  - rewrite (len_drain_unfold (more c y)), Hi. simpl.
    rewrite (IH c' frame eq_refl Hok). reflexivity.
Qed.

Lemma len_drain_ok (c : Conn) : conn_ok c -> conn_ok (snd (LenLoop.drain c)).
Proof.
  induction c as [c IH] using len_loop_ind. intros Hc.
  pose proof (len_iter_ok c Hc) as Hok.
  rewrite len_drain_unfold.
  destruct (LenPrefix.iter c) as [c'|c' frame] eqn:E; simpl; [assumption|].
  exact (IH c' frame eq_refl Hok).
Qed.

(** What a drain leaves has nothing more to give. *)
Lemma len_drain_stable (c : Conn) :
  conn_ok c ->
  LenLoop.drain (snd (LenLoop.drain c)) = ([], snd (LenLoop.drain c)).
Proof.
  intros Hc. pose proof (len_drain_more c [] Hc) as H.
  rewrite !more_nil in H.
  destruct (LenLoop.drain c) as [fs c'] eqn:E. simpl in *.
  destruct (LenLoop.drain c') as [fs' c''] eqn:E'. simpl in *.
  injection H as H1 H2. subst c''.
  rewrite <- (app_nil_r fs) in H1 at 1. apply app_inv_head in H1. now subst.
Qed.

Lemma run_len_prefix_concat (chunks : list Buffer) (c : Conn) :
  conn_ok c -> LenLoop.drain c = ([], c) ->
  run len_prefix c chunks = LenLoop.drain (more c (concat chunks)).
Proof.
  revert c. induction chunks as [|chunk chunks IH]; intros c Hc Hst; simpl.
  - now rewrite more_nil, Hst.
  - change (LenLoop.drain {| buffer := buffer c ++ chunk; pendingLen := pendingLen c |})
      with (LenLoop.drain (more c chunk)).
    assert (Hc1 : conn_ok (more c chunk)) by exact Hc.
    rewrite IH by (auto using len_drain_ok, len_drain_stable).
    rewrite <- more_more, (len_drain_more (more c chunk) (concat chunks) Hc1).
    reflexivity.
Qed.

Lemma len_drain_new_conn : LenLoop.drain new_conn = ([], new_conn).
Proof. rewrite len_drain_unfold. reflexivity. Qed.

(** A header followed by as many bytes as it declares is one pass of the
    loop: header and payload leave the buffer, the payload is the frame. *)
Lemma len_frame_first (hdr payload rest : Buffer) :
  length hdr = 4%nat -> readUInt32BE hdr = len payload ->
  LenPrefix.iter {| buffer := hdr ++ payload ++ rest; pendingLen := None |} =
    Continue {| buffer := rest; pendingLen := None |} payload.
Proof.
  intros H4 Hn. unfold LenPrefix.iter. simpl.
  pose proof (len_nonneg payload). pose proof (len_nonneg rest).
  assert (Hl : len hdr = 4) by (unfold len; lia).
  destruct (Z.ltb_spec (len (hdr ++ payload ++ rest)) 4) as [Hlt|_];
    [rewrite !len_app in Hlt; lia|].
  rewrite readUInt32BE_app, Hn by lia.
  rewrite slice_from_in_range by (rewrite !len_app; lia).
  replace (Z.to_nat 4) with (length hdr + 0)%nat by lia.
  rewrite skipn_app, skipn_all2 by lia.
  replace (length hdr + 0 - length hdr)%nat with 0%nat by lia.
  rewrite skipn_O. change ([] ++ payload ++ rest) with (payload ++ rest).
  rewrite len_extract_unfold by lia.
  destruct (Z.ltb_spec (len (payload ++ rest)) (len payload)) as [Hlt|_];
    [rewrite len_app in Hlt; lia|].
  unfold len. rewrite Nat2Z.id.
  rewrite skipn_app, firstn_app, skipn_all, firstn_all, Nat.sub_diag.
  simpl. now rewrite app_nil_r.
Qed.

(** A header whose payload has not all arrived: the header leaves the buffer
    at once and its value waits in [pendingLen]. *)
Lemma len_header_pending (hdr part : Buffer) :
  length hdr = 4%nat -> len part < readUInt32BE hdr ->
  on_chunk len_prefix new_conn (hdr ++ part)
  = ([], {| buffer := part; pendingLen := Some (readUInt32BE hdr) |}).
Proof.
  intros H4 Hn. unfold on_chunk, new_conn. cbn [buffer pendingLen app].
  rewrite len_drain_unfold. unfold LenPrefix.iter. cbn [buffer pendingLen].
  assert (Hl : len hdr = 4) by (unfold len; lia).
  pose proof (len_nonneg part).
  destruct (Z.ltb_spec (len (hdr ++ part)) 4) as [Hlt|_];
    [rewrite len_app in Hlt; lia|].
  rewrite readUInt32BE_app by lia.
  rewrite slice_from_in_range by (rewrite len_app; lia).
  replace (Z.to_nat 4) with (length hdr + 0)%nat by lia.
  rewrite skipn_past, skipn_O.
  unfold LenPrefix.extract.
  destruct (Z.ltb_spec (len part) (readUInt32BE hdr)); [reflexivity|lia].
Qed.

(** C2. [len-prefix] chunking invariance: however the bytes a connection
    receives are cut into [data] events, the loop extracts the same frames in
    the same order and ends with the same [buffer] and [pendingLen]. The
    frames are what the format says: a stream that starts with a 4-byte
    big-endian length followed by that many bytes yields exactly those bytes
    as its first frame, whatever the cut; and a header whose payload is still
    incomplete is taken off the buffer at once, its value kept in
    [pendingLen] for the events to come. *)
Theorem len_prefix_chunking_invariance :
  (forall chunks1 chunks2 : list Buffer,
      concat chunks1 = concat chunks2 ->
      run len_prefix new_conn chunks1 = run len_prefix new_conn chunks2)
  /\ (forall (hdr payload rest : Buffer) (chunks : list Buffer),
      length hdr = 4%nat -> readUInt32BE hdr = len payload ->
      concat chunks = hdr ++ payload ++ rest ->
      fst (run len_prefix new_conn chunks)
      = payload :: fst (run len_prefix new_conn [rest]))
  /\ (forall hdr part : Buffer,
      length hdr = 4%nat -> len part < readUInt32BE hdr ->
      on_chunk len_prefix new_conn (hdr ++ part)
      = ([], {| buffer := part; pendingLen := Some (readUInt32BE hdr) |})).
Proof.
  split; [|split].
  - intros chunks1 chunks2 H.
    rewrite !run_len_prefix_concat by (exact I || exact len_drain_new_conn).
    now rewrite H.
  - intros hdr payload rest chunks H4 Hn Hc.
    rewrite !run_len_prefix_concat by (exact I || exact len_drain_new_conn).
    rewrite Hc. simpl concat. rewrite app_nil_r. unfold more, new_conn. simpl.
    rewrite len_drain_unfold, len_frame_first by assumption. reflexivity.
  - exact len_header_pending.
Qed.

(** The frame [ABCDE] behind its header, cut after the header's second byte
    and inside the payload, against the same bytes in one piece. *)
Lemma len_prefix_chunking_invariance_witness :
  run len_prefix new_conn [[x00; x00]; [x00; x05; x41; x42]; [x43; x44; x45]]
  = run len_prefix new_conn [[x00; x00; x00; x05; x41; x42; x43; x44; x45]]
  /\ fst (run len_prefix new_conn [[x00; x00]; [x00; x05; x41; x42]; [x43; x44; x45]])
     = [x41; x42; x43; x44; x45] :: fst (run len_prefix new_conn [[]])
  /\ on_chunk len_prefix new_conn ([x00; x00; x00; x05] ++ [x41; x42])
     = ([], {| buffer := [x41; x42];
               pendingLen := Some (readUInt32BE [x00; x00; x00; x05]) |}).
Proof.
  destruct len_prefix_chunking_invariance as (Hcut & Hframe & Hpending).
  split; [|split].
  - apply Hcut. reflexivity.
  - apply (Hframe [x00; x00; x00; x05]); reflexivity.
  - apply Hpending; reflexivity.
Defined.

(** ** Chunk boundaries do not matter: [jpeg-markers] *)

Section ScanFacts.

Implicit Types pat p t x y : Buffer.

Lemma find_more pat x y k : find pat x = Some k -> find pat (x ++ y) = Some k.
Proof.
  revert k. induction x as [|a x IH]; intros k; simpl; [discriminate|].
  destruct (starts_with pat (a :: x)) eqn:E.
  - intros [= <-]. change (a :: x ++ y) with ((a :: x) ++ y).
    now rewrite starts_with_app.
  - destruct (find pat x) as [j|] eqn:Ej; simpl; [|discriminate].
    intros [= <-]. rewrite (IH j eq_refl). simpl.
    change (a :: x ++ y) with ((a :: x) ++ y).
    rewrite starts_with_app_long, E; [reflexivity|].
    apply find_Some_bound in Ej. simpl. lia.
Qed.

(** A prefix [p] in which no occurrence of [pat] starts, even one that runs
    on into the bytes [t] behind it, only shifts what the scan finds. *)
Lemma find_skip pat p t y :
  find pat (p ++ t) = None -> (length pat <= S (length t))%nat ->
  find pat (p ++ t ++ y) = option_map (Nat.add (length p)) (find pat (t ++ y)).
Proof.
  intros H Ht. induction p as [|a p IH]; simpl.
  - now destruct (find pat (t ++ y)).
  - simpl in H. destruct (starts_with pat (a :: p ++ t)) eqn:E; [discriminate|].
    destruct (find pat (p ++ t)) eqn:Ef; [discriminate|].
    assert (Hs : starts_with pat (a :: p ++ t ++ y) = false).
    { rewrite app_assoc. change (a :: (p ++ t) ++ y) with ((a :: p ++ t) ++ y).
      rewrite starts_with_app_long; [exact E|].
      simpl. rewrite length_app. lia. }
    rewrite Hs, (IH eq_refl).
    now destruct (find pat (t ++ y)).
Qed.

End ScanFacts.

Lemma marker_iter_more (x y x' frame : Buffer) :
  Marker.iter x = Continue x' frame ->
  Marker.iter (x ++ y) = Continue (x' ++ y) frame.
Proof.
  rewrite !marker_iter_unfold.
  destruct (find SOI x) as [s|] eqn:Es; [|discriminate].
  destruct (find EOI (skipn (s + 2) x)) as [e|] eqn:Ee; [|discriminate].
  intros [= <- <-].
  pose proof (find_Some_bound _ _ _ Es) as Hs. change (length SOI) with 2%nat in Hs.
  pose proof (find_Some_bound _ _ _ Ee) as He. change (length EOI) with 2%nat in He.
  rewrite length_skipn in He.
  rewrite (find_more _ _ y _ Es).
  rewrite (skipn_app (s + 2)).
  replace (s + 2 - length x)%nat with 0%nat by lia. rewrite skipn_O.
  rewrite (find_more _ _ y _ Ee).
  rewrite (skipn_app (s + 2 + e + 2)), (skipn_app s).
  replace (s + 2 + e + 2 - length x)%nat with 0%nat by lia.
  replace (s - length x)%nat with 0%nat by lia. rewrite !skipn_O.
  rewrite firstn_app, length_skipn.
  replace (2 + e + 2 - (length x - s))%nat with 0%nat by lia.
  simpl firstn at 2. now rewrite app_nil_r.
Qed.

(** Bytes in front of the first possible start marker change no frame. *)
Lemma marker_iter_skip (p t y : Buffer) :
  find SOI (p ++ t) = None -> t <> [] ->
  match Marker.iter (t ++ y) with
  | Continue b frame => Marker.iter (p ++ t ++ y) = Continue b frame
  | Break _ => exists b, Marker.iter (p ++ t ++ y) = Break b
  end.
Proof.
  intros Hp Ht.
  assert (Hf := find_skip SOI p t y Hp).
  assert (Hsk : forall k, skipn (length p + k) (p ++ t ++ y) = skipn k (t ++ y))
    by (intros k; apply skipn_past).
  rewrite (marker_iter_unfold (t ++ y)), (marker_iter_unfold (p ++ t ++ y)).
  rewrite Hf by (destruct t; [congruence|simpl; lia]).
  destruct (find SOI (t ++ y)) as [s|] eqn:Es; simpl option_map; cbv iota beta.
  - replace (length p + s + 2)%nat with (length p + (s + 2))%nat by lia.
    rewrite Hsk.
    destruct (find EOI (skipn (s + 2) (t ++ y))) as [e|]; [|eauto].
    replace (length p + (s + 2) + e + 2)%nat
      with (length p + (s + 2 + e + 2))%nat by lia.
    now rewrite !Hsk.
  - eauto.
Qed.

Lemma marker_frames_skip (p t y : Buffer) :
  find SOI (p ++ t) = None -> t <> [] ->
  fst (MarkerLoop.drain (p ++ t ++ y)) = fst (MarkerLoop.drain (t ++ y)).
Proof.
  intros Hp Ht. pose proof (marker_iter_skip p t y Hp Ht) as H.
  rewrite (marker_drain_unfold (p ++ t ++ y)), (marker_drain_unfold (t ++ y)).
  destruct (Marker.iter (t ++ y)) as [b|b frame].
  - destruct H as [b' ->]. reflexivity.
  - rewrite H. reflexivity.
Qed.

(** A [break] leaves the buffer as it is, or cut down to a non-empty tail
    when it holds no start marker. *)
Lemma marker_iter_break (x b : Buffer) :
  Marker.iter x = Break b ->
  b = x \/ (find SOI x = None /\ b <> [] /\ exists p, x = p ++ b).
Proof.
  rewrite marker_iter_unfold.
  destruct (find SOI x) as [s|] eqn:Es.
  - destruct (find EOI (skipn (s + 2) x)); [discriminate|].
    intros [= <-]. now left.
  - destruct (len x >? 5 * 1024 * 1024) eqn:E; intros [= <-]; [|now left].
    right. apply Z.gtb_lt in E. split; [reflexivity|]. split.
    + intros H. apply (f_equal (@length byte)) in H.
      rewrite length_skipn in H. unfold len in *. simpl in H. lia.
    + exists (firstn (Z.to_nat (len x - 1024 * 1024)) x).
      now rewrite firstn_skipn.
Qed.

(** Draining after more bytes arrived yields the frames that were already
    there, then those of draining again with the new bytes behind what was
    left, also when what was left had been cut down. *)
Lemma marker_drain_more (x y : Buffer) :
  fst (MarkerLoop.drain (x ++ y)) =
    fst (MarkerLoop.drain x) ++ fst (MarkerLoop.drain (snd (MarkerLoop.drain x) ++ y)).
Proof.
  induction x as [x IH] using marker_loop_ind.
  rewrite (marker_drain_unfold x).
  destruct (Marker.iter x) as [b|b frame] eqn:E; simpl.
  - apply marker_iter_break in E as [->|(Hs & Hb & p & Hx)]; [reflexivity|].
    rewrite Hx in Hs |- *. rewrite <- app_assoc.
    now apply marker_frames_skip.
  - rewrite (marker_drain_unfold (x ++ y)), (marker_iter_more _ y _ _ E). simpl.
    f_equal. exact (IH b frame eq_refl).
Qed.

Lemma marker_drain_stable (x : Buffer) :
  fst (MarkerLoop.drain (snd (MarkerLoop.drain x))) = [].
Proof.
  pose proof (marker_drain_more x []) as H. rewrite !app_nil_r in H.
  rewrite <- (app_nil_r (fst (MarkerLoop.drain x))) in H at 1.
  apply app_inv_head in H. now symmetry.
Qed.

Lemma run_jpeg_markers_concat (chunks : list Buffer) (c : Conn) :
  fst (MarkerLoop.drain (buffer c)) = [] ->
  fst (run jpeg_markers c chunks) = fst (MarkerLoop.drain (buffer c ++ concat chunks)).
Proof.
  revert c. induction chunks as [|chunk chunks IH]; intros c Hst; simpl.
  - now rewrite app_nil_r, Hst.
  - rewrite IH by (simpl; apply marker_drain_stable). simpl.
    now rewrite app_assoc, (marker_drain_more (buffer c ++ chunk)).
Qed.

(** C1. [jpeg-markers] chunking invariance: however the bytes a connection
    receives are cut into [data] events, the loop extracts the same frames in
    the same order; the cut of a marker-less buffer above 5 MB down to its
    last 1 MB, whenever the chunking makes it happen, changes none of them. *)
Theorem jpeg_markers_chunking_invariance (chunks1 chunks2 : list Buffer) :
  concat chunks1 = concat chunks2 ->
  fst (run jpeg_markers new_conn chunks1) = fst (run jpeg_markers new_conn chunks2).
Proof.
  intros H.
  rewrite !run_jpeg_markers_concat by (now rewrite marker_drain_unfold).
  now rewrite H.
Qed.

(** One byte more than the high-water mark, and no marker in it. *)
Definition noise : Buffer := repeat x00 (Z.to_nat (5 * 1024 * 1024 + 1)).

(** A first [data] event above the high-water mark, which is cut down to its
    last 1 MB, then a frame arriving in three pieces, against the same bytes
    in one piece, where nothing is cut before the frame is found. *)
Lemma jpeg_markers_chunking_invariance_witness :
  fst (run jpeg_markers new_conn [noise; [xff]; [xd8; x01; xff]; [xd9]])
  = fst (run jpeg_markers new_conn [noise ++ [xff; xd8; x01; xff; xd9]]).
Proof.
  apply jpeg_markers_chunking_invariance.
  cbn [concat]. rewrite !app_nil_r. reflexivity.
Defined.

(** ** Where the first marker is *)

Section MarkerPosition.

Variables (m0 m1 : byte).
Hypothesis m_distinct : Byte.eqb m1 m0 = false.

Lemma byte_eqb_refl (x : byte) : Byte.eqb x x = true.
Proof. now apply Byte.byte_dec_lb. Qed.

Lemma find_cons (pat : Buffer) (x : byte) (b : Buffer) :
  find pat (x :: b) =
    if starts_with pat (x :: b) then Some 0%nat else option_map S (find pat b).
Proof. reflexivity. Qed.

(** Behind bytes [g] that hold no marker, the marker is found right where
    [g] ends: the last byte of [g] and the marker's first byte never pair up
    into a marker, since its two bytes differ. *)
Lemma find_marker_after (g r : Buffer) :
  find [m0; m1] g = None -> find [m0; m1] (g ++ m0 :: m1 :: r) = Some (length g).
Proof.
  induction g as [|x g IH]; intros H.
  - simpl. now rewrite !byte_eqb_refl.
  - rewrite find_cons in H.
    destruct (starts_with [m0; m1] (x :: g)) eqn:E; [discriminate|].
    destruct (find [m0; m1] g) eqn:Ef; [discriminate|].
    change ((x :: g) ++ m0 :: m1 :: r) with (x :: g ++ m0 :: m1 :: r).
    rewrite find_cons, (IH eq_refl).
    assert (Hs : starts_with [m0; m1] (x :: g ++ m0 :: m1 :: r) = false).
    { destruct g as [|z g].
      - simpl. rewrite m_distinct. now rewrite andb_false_r.
      - exact E. }
    now rewrite Hs.
Qed.

(** No occurrence at all, at any offset. *)
Lemma find_None_nowhere (b : Buffer) (k : nat) :
  find [m0; m1] b = None -> starts_with [m0; m1] (skipn k b) = false.
Proof.
  revert k. induction b as [|x b IH]; intros k H.
  - now rewrite skipn_nil.
  - rewrite find_cons in H.
    destruct (starts_with [m0; m1] (x :: b)) eqn:E; [discriminate|].
    destruct (find [m0; m1] b) eqn:Ef; [discriminate|].
    destruct k as [|k]; [exact E|]. simpl. now apply IH.
Qed.

Lemma nowhere_find_None (b : Buffer) :
  (forall k : nat, starts_with [m0; m1] (skipn k b) = false) ->
  find [m0; m1] b = None.
Proof.
  induction b as [|x b IH]; intros H; [reflexivity|].
  rewrite find_cons.
  rewrite (H 0%nat : starts_with [m0; m1] (x :: b) = false).
  rewrite IH; [reflexivity|]. intros k. exact (H (S k)).
Qed.

End MarkerPosition.

Lemma SOI_distinct : Byte.eqb xd8 xff = false.
Proof. reflexivity. Qed.

Lemma EOI_distinct : Byte.eqb xd9 xff = false.
Proof. reflexivity. Qed.

(** First marker-less bytes, then a start marker, a body without end marker
    and an end marker: one pass extracts marker to marker and leaves what
    follows; the bytes in front are gone with the frame. *)
Lemma marker_frame_first (garbage body rest : Buffer) :
  find SOI garbage = None -> find EOI body = None ->
  Marker.iter (garbage ++ SOI ++ body ++ EOI ++ rest) =
    Continue rest (SOI ++ body ++ EOI).
Proof.
  intros Hg Hb. rewrite marker_iter_unfold.
  change (garbage ++ SOI ++ body ++ EOI ++ rest)
    with (garbage ++ xff :: xd8 :: body ++ xff :: xd9 :: rest).
  unfold SOI at 1.
  rewrite (find_marker_after xff xd8 SOI_distinct garbage _ Hg).
  rewrite skipn_past. cbn [skipn]. rewrite skipn_O.
  unfold EOI at 1.
  rewrite (find_marker_after xff xd9 EOI_distinct body _ Hb).
  f_equal.
  - replace (length garbage + 2 + length body + 2)%nat
      with (length garbage + (2 + (length body + 2)))%nat by lia.
    rewrite skipn_past. cbn [skipn Nat.add]. rewrite skipn_past.
    cbn [skipn]. now rewrite skipn_O.
  - rewrite <- (Nat.add_0_r (length garbage)), skipn_past, skipn_O.
    change (2 + length body + 2)%nat with (S (S (length body + 2))).
    cbn [firstn]. rewrite firstn_app, firstn_all2 by lia.
    replace (length body + 2 - length body)%nat with 2%nat by lia.
    reflexivity.
Qed.

(** ** Frames below the minimum size *)



Lemma handleFrame_short (frame : Buffer) (cache : Cache) :
  len frame < 128 -> handleFrame (Some frame) cache = cache.
Proof.
  intros H. unfold handleFrame. destruct (Z.ltb_spec (len frame) 128); [reflexivity|lia].
Qed.






(** A cache that already holds a frame, for the runs below. *)
Definition warm_cache : Cache :=
  {| latestFrame := Some (repeat x07 200); framesReceived := 3; bytesLastFrame := 200 |}.


(** ** The high-water mark *)

(** 5 MB + 1 of marker-less bytes, then a start marker, a 100-byte body and
    an end marker. *)
Definition jammed : Buffer := noise ++ SOI ++ repeat x01 100 ++ EOI.

Lemma marker_drain_nil : MarkerLoop.drain [] = ([], []).
Proof. now rewrite marker_drain_unfold. Qed.

Lemma on_chunk_garbage_frame (garbage body : Buffer) :
  find SOI garbage = None -> find EOI body = None ->
  on_chunk jpeg_markers new_conn (garbage ++ SOI ++ body ++ EOI)
  = ([SOI ++ body ++ EOI], new_conn).
Proof.
  intros Hg Hb. unfold on_chunk, new_conn. cbn [buffer pendingLen app].
  rewrite marker_drain_unfold.
  pose proof (marker_frame_first garbage body [] Hg Hb) as H.
  rewrite app_nil_r in H. rewrite H, marker_drain_nil. reflexivity.
Qed.

Lemma find_SOI_noise : find SOI noise = None.
Proof. vm_compute. reflexivity. Qed.

Lemma len_jammed : len jammed = 5 * 1024 * 1024 + 105.
Proof.
  unfold jammed, noise, len. rewrite !length_app, !repeat_length. simpl length. lia.
Qed.

(** C4, as stated, fails: with a start marker in the buffer the loop does not
    take the trimming branch. It extracts the frame, and the marker-less bytes
    before it go with it: nothing of the buffer is left, where the claim has
    its last 1 MB kept. *)
Lemma high_water_trim_counterexample :
  5 * 1024 * 1024 < len jammed
  /\ find SOI noise = None
  /\ on_chunk jpeg_markers new_conn jammed
     = ([SOI ++ repeat x01 100 ++ EOI], new_conn)
  /\ len (buffer (snd (on_chunk jpeg_markers new_conn jammed))) = 0
  /\ len (slice_from jammed (-1024 * 1024)) = 1024 * 1024
  /\ buffer (snd (on_chunk jpeg_markers new_conn jammed))
     <> slice_from jammed (-1024 * 1024).
Proof.
  assert (H : on_chunk jpeg_markers new_conn jammed
              = ([SOI ++ repeat x01 100 ++ EOI], new_conn))
    by (apply on_chunk_garbage_frame; [exact find_SOI_noise|reflexivity]).
  pose proof len_jammed as Hl.
  assert (Ht : len (slice_from jammed (-1024 * 1024)) = 1024 * 1024).
  { replace (-1024 * 1024) with (- (1024 * 1024)) by lia.
    rewrite slice_from_tail by lia.
    unfold len in *. rewrite length_skipn. lia. }
  split; [lia|]. split; [exact find_SOI_noise|]. split; [exact H|].
  split; [now rewrite H|]. split; [exact Ht|].
  rewrite H. intros E. cbn [snd buffer new_conn] in E. rewrite <- E in Ht.
  discriminate Ht.
Qed.

Lemma on_chunk_trim (buf : Buffer) :
  find SOI buf = None -> 5 * 1024 * 1024 < len buf ->
  on_chunk jpeg_markers new_conn buf
  = ([], {| buffer := slice_from buf (-1024 * 1024); pendingLen := None |}).
Proof.
  intros Hs Hl. unfold on_chunk, new_conn. cbn [buffer pendingLen app].
  rewrite marker_drain_unfold. unfold Marker.iter.
  rewrite indexOf_unfold by lia. change (skipn (Z.to_nat 0) buf) with buf.
  rewrite Hs. cbn [Z.eqb]. apply Z.gtb_lt in Hl. now rewrite Hl.
Qed.

Lemma noise_is_trimmed :
  len (buffer (snd (on_chunk jpeg_markers new_conn noise))) = 1024 * 1024.
Proof.
  assert (Hl : len noise = 5 * 1024 * 1024 + 1)
    by (unfold noise, len; rewrite repeat_length; lia).
  rewrite on_chunk_trim by (exact find_SOI_noise || lia).
  cbn [snd buffer]. replace (-1024 * 1024) with (- (1024 * 1024)) by lia.
  rewrite slice_from_tail by lia. unfold len in *. rewrite length_skipn. lia.
Qed.

(** C4, amended. A buffer of marker-less bytes, a start marker, a body
    without end marker and an end marker is not trimmed, whatever its size:
    the frame from marker to marker is extracted and the bytes before it are
    dropped whole, leaving an empty buffer. The cut to the last 1 MB is what
    happens to a buffer above 5 MB that holds no start marker: exactly its
    last 1 MB stays, no frame comes out. *)
Theorem high_water_trim_only_without_start_marker :
  (forall garbage body : Buffer,
      find SOI garbage = None -> find EOI body = None ->
      on_chunk jpeg_markers new_conn (garbage ++ SOI ++ body ++ EOI)
      = ([SOI ++ body ++ EOI], new_conn))
  /\ (forall buf : Buffer,
      find SOI buf = None -> 5 * 1024 * 1024 < len buf ->
      on_chunk jpeg_markers new_conn buf
      = ([], {| buffer := slice_from buf (-1024 * 1024); pendingLen := None |})
      /\ len (slice_from buf (-1024 * 1024)) = 1024 * 1024
      /\ exists dropped, buf = dropped ++ slice_from buf (-1024 * 1024)).
Proof.
  split; [exact on_chunk_garbage_frame|].
  intros buf Hs Hl. split; [now apply on_chunk_trim|].
  replace (-1024 * 1024) with (- (1024 * 1024)) by lia.
  rewrite slice_from_tail by lia. split.
  - unfold len in *. rewrite length_skipn. lia.
  - exists (firstn (Z.to_nat (len buf - 1024 * 1024)) buf).
    now rewrite firstn_skipn.
Qed.

(** The jammed buffer loses its 5 MB of leading bytes to the frame, and the
    leading bytes alone are cut to 1 MB. *)
Lemma high_water_trim_only_without_start_marker_witness :
  on_chunk jpeg_markers new_conn (noise ++ SOI ++ repeat x01 100 ++ EOI)
  = ([SOI ++ repeat x01 100 ++ EOI], new_conn)
  /\ len (slice_from noise (-1024 * 1024)) = 1024 * 1024.
Proof.
  destruct high_water_trim_only_without_start_marker as [H1 H2]. split.
  - apply H1; [exact find_SOI_noise|reflexivity].
  - apply (H2 noise); [exact find_SOI_noise|].
    unfold noise, len. rewrite repeat_length. lia.
Defined.

(** ** A start marker without its end marker *)

(** C5. When the buffer, with the new chunk appended, holds a start marker
    and no end marker begins at or after the first one, the handler extracts
    nothing and keeps every byte: the cut at the high-water mark is not
    applied, however long the buffer is. *)
Theorem pending_start_marker_never_trimmed (c : Conn) (chunk : Buffer) (s : nat) :
  find SOI (buffer c ++ chunk) = Some s ->
  (forall j : nat, (s <= j)%nat ->
     starts_with EOI (skipn j (buffer c ++ chunk)) = false) ->
  on_chunk jpeg_markers c chunk
  = ([], {| buffer := buffer c ++ chunk; pendingLen := pendingLen c |}).
Proof.
  intros Hs He. unfold on_chunk.
  rewrite marker_drain_unfold, marker_iter_unfold, Hs.
  rewrite (nowhere_find_None xff xd9); [reflexivity|].
  intros k. rewrite skipn_skipn. apply He. lia.
Qed.

Lemma find_EOI_noise : find EOI noise = None.
Proof. vm_compute. reflexivity. Qed.

Lemma skipn_two {A : Type} (a b : A) (l : list A) (j : nat) :
  skipn (S (S j)) ([a] ++ b :: l) = skipn j l.
Proof. reflexivity. Qed.

(** A start marker followed by 5 MB + 1 of bytes without end marker, arriving
    on a connection that had buffered the marker's first byte. *)
Lemma pending_start_marker_never_trimmed_witness :
  on_chunk jpeg_markers {| buffer := [xff]; pendingLen := None |} (xd8 :: noise)
  = ([], {| buffer := [xff] ++ xd8 :: noise; pendingLen := None |}).
Proof.
  apply (pending_start_marker_never_trimmed
           {| buffer := [xff]; pendingLen := None |} (xd8 :: noise) 0).
  - reflexivity.
  - intros j _. destruct j as [|[|j]]; [reflexivity|reflexivity|].
    cbn [buffer]. rewrite (skipn_two xff xd8 noise j).
    exact (find_None_nowhere xff xd9 noise j find_EOI_noise).
Defined.

(** ** The broadcast scheduler and the registry of streaming clients *)

Module Scheduler.

Import stdpp.base stdpp.gmap.
Local Open Scope Z_scope.

(** What [writeFrameTo] hands to [res.write], call by call. *)
Inductive Chunk : Type :=
| Boundary                  (* "--frame\r\n" *)
| ContentType               (* "Content-Type: image/jpeg\r\n" *)
| ContentLength (n : Z)     (* "Content-Length: <n>\r\n\r\n" *)
| Payload (frame : Buffer)  (* the frame's bytes *)
| Crlf.                     (* "\r\n" *)

(** An HTTP response as the server sees it: what [res.write] accepted so
    far, and whether [res.end()] was called on it. *)
Record Sink : Type := { written : list Chunk; ended : bool }.

Definition fresh_sink : Sink := {| written := []; ended := false |}.

(** Responses are objects with identity; [nat] names them. [mjpegClients] is
    the [Set] of registered ones, [responses] the state of every response
    that exists. *)
Record Server : Type :=
  { cache : Cache;
    tcpClients : gset nat;
    mjpegClients : gset nat;
    responses : gmap nat Sink }.

Definition sink_of (rs : gmap nat Sink) (res : nat) : Sink :=
  default fresh_sink (rs !! res).

(** [mjpegClients.add(res)] and [mjpegClients.delete(res)] *)
Definition register (res : nat) (clients : gset nat) : gset nat := {[res]} ∪ clients.
Definition unregister (res : nat) (clients : gset nat) : gset nat := clients ∖ {[res]}.

(** [try { res.end() } catch {}] *)
Definition end_ (res : nat) (rs : gmap nat Sink) : gmap nat Sink :=
  <[res := {| written := written (sink_of rs res); ended := true |}]> rs.

(** The [close] handler of a [/stream.mjpg] request. *)
Definition on_close (res : nat) (st : Server) : Server :=
  {| cache := cache st;
     tcpClients := tcpClients st;
     mjpegClients := unregister res (mjpegClients st);
     responses := end_ res (responses st) |}.

Section Tick.

(** Whether [res.write(chunk)] throws, for response [res] in its present
    state: the environment's part (a broken connection, a client gone). *)
Variable throws : nat -> Sink -> Chunk -> bool.

(** [res.write(chunk)]; [None] when it throws. *)
Definition write (res : nat) (chunk : Chunk) (rs : gmap nat Sink)
  : option (gmap nat Sink) :=
  let s := sink_of rs res in
  if throws res s chunk then None
  else Some (<[res := {| written := written s ++ [chunk]; ended := ended s |}]> rs).

(** Calls of [res.write] in sequence, up to the first that throws: the
    responses afterwards, and whether all calls returned. *)
Fixpoint write_all (res : nat) (chunks : list Chunk) (rs : gmap nat Sink)
  : gmap nat Sink * bool :=
  match chunks with
  | [] => (rs, true)
  | chunk :: chunks' =>
      match write res chunk rs with
      | None => (rs, false)
      | Some rs' => write_all res chunks' rs'
      end
  end.

Definition wire_chunks (frame : Buffer) : list Chunk :=
  [Boundary; ContentType; ContentLength (len frame); Payload frame; Crlf].

(** [writeFrameTo(res, frame)] *)
Definition writeFrameTo (res : nat) (frame : Buffer) (rs : gmap nat Sink)
  : gmap nat Sink * bool :=
  write_all res (wire_chunks frame) rs.

(** Body of the [for ... of] loop: [try { writeFrameTo } catch { delete; end }]. *)
Definition tick_client (frame : Buffer) (st : Server) (res : nat) : Server :=
  let r := writeFrameTo res frame (responses st) in
  if snd r then
    {| cache := cache st;
       tcpClients := tcpClients st;
       mjpegClients := mjpegClients st;
       responses := fst r |}
  else
    {| cache := cache st;
       tcpClients := tcpClients st;
       mjpegClients := unregister res (mjpegClients st);
       responses := end_ res (fst r) |}.

(** The [setInterval] callback; the loop runs over [Array.from(mjpegClients)],
    the registry as it is when the tick starts. *)
Definition tick (st : Server) : Server :=
  match latestFrame (cache st) with
  | None => st
  | Some frame =>
      if decide (size (mjpegClients st) = 0%nat) then st
      else foldl (tick_client frame) st (elements (mjpegClients st))
  end.

End Tick.

(** *** Configuration and the timer *)

(** [Number(process.env.EMIT_FPS || 12)], for a setting that is a whole
    number; [None] is the variable unset or empty. *)
Definition configured_fps (env : option Z) : Z :=
  match env with Some n => n | None => 12 end.

(** [const EMIT_FPS = Math.max(1, Number(process.env.EMIT_FPS || 12))] *)
Definition EMIT_FPS (env : option Z) : Z := Z.max 1 (configured_fps env).

(** [Math.floor(1000 / EMIT_FPS)], the delay [setInterval] is called with. *)
Definition interval_arg (env : option Z) : Z := 1000 / EMIT_FPS env.

(** The interval Node's [setInterval] runs a callback at: a delay below 1 or
    above 2147483647 is replaced by 1 (timers documentation). *)
Definition timer_delay (delay : Z) : Z :=
  if (delay <? 1) || (delay >? 2147483647) then 1 else delay.

(** Milliseconds between two runs of the broadcast callback. *)
Definition period (env : option Z) : Z := timer_delay (interval_arg env).

(** *** [GET /stats] *)

Record Config : Type := { FRAME_MODE : FrameMode; EMIT_FPS_setting : option Z }.

Record Stats : Type :=
  { stat_tcpClients : nat;
    stat_mjpegClients : nat;
    stat_framesReceived : Z;
    stat_bytesLastFrame : Z;
    stat_frameMode : FrameMode;
    stat_emitFps : Z }.

Definition stats (cfg : Config) (st : Server) : Stats :=
  {| stat_tcpClients := size (tcpClients st);
     stat_mjpegClients := size (mjpegClients st);
     stat_framesReceived := framesReceived (cache st);
     stat_bytesLastFrame := bytesLastFrame (cache st);
     stat_frameMode := FRAME_MODE cfg;
     stat_emitFps := EMIT_FPS (EMIT_FPS_setting cfg) |}.

(** A [data] event on one camera connection, seen from the server: only the
    cache can change. *)
Definition on_camera_data (cfg : Config) (st : Server) (c : Conn) (chunk : Buffer)
  : Conn * Server :=
  let r := on_data (FRAME_MODE cfg) (c, cache st) chunk in
  (fst r,
   {| cache := snd r;
      tcpClients := tcpClients st;
      mjpegClients := mjpegClients st;
      responses := responses st |}).

(** *** One failing client does not disturb the others *)

Section TickFacts.

Variable throws : nat -> Sink -> Chunk -> bool.

(** [write_all] as seen from the one response it writes to. *)
Fixpoint sink_write_all (res : nat) (chunks : list Chunk) (s : Sink) : Sink * bool :=
  match chunks with
  | [] => (s, true)
  | chunk :: chunks' =>
      if throws res s chunk then (s, false)
      else sink_write_all res chunks'
             {| written := written s ++ [chunk]; ended := ended s |}
  end.

Lemma sink_of_insert (rs : gmap nat Sink) (res res' : nat) (s : Sink) :
  sink_of (<[res := s]> rs) res' = if decide (res = res') then s else sink_of rs res'.
Proof.
  unfold sink_of. rewrite lookup_insert. now destruct (decide (res = res')).
Qed.

Lemma write_all_sink (res : nat) (chunks : list Chunk) (rs : gmap nat Sink) :
  snd (write_all throws res chunks rs)
  = snd (sink_write_all res chunks (sink_of rs res))
  /\ forall res' : nat,
      sink_of (fst (write_all throws res chunks rs)) res'
      = if decide (res = res')
        then fst (sink_write_all res chunks (sink_of rs res))
        else sink_of rs res'.
Proof.
  revert rs. induction chunks as [|chunk chunks IH]; intros rs; simpl.
  - split; [reflexivity|]. intros res'. now destruct (decide (res = res')) as [->|].
  - unfold write. destruct (throws res (sink_of rs res) chunk); simpl.
    + split; [reflexivity|]. intros res'. now destruct (decide (res = res')) as [->|].
    + destruct (IH (<[res := {| written := written (sink_of rs res) ++ [chunk];
                               ended := ended (sink_of rs res) |}]> rs)) as [H1 H2].
      rewrite sink_of_insert in H1. destruct (decide (res = res)); [|congruence].
      split; [exact H1|]. intros res'. rewrite H2, !sink_of_insert.
      destruct (decide (res = res)); [|congruence].
      now destruct (decide (res = res')).
Qed.

Lemma sink_write_all_done (res : nat) (chunks : list Chunk) (s : Sink) :
  snd (sink_write_all res chunks s) = true ->
  fst (sink_write_all res chunks s)
  = {| written := written s ++ chunks; ended := ended s |}.
Proof.
  revert s. induction chunks as [|chunk chunks IH]; intros s; simpl.
  - intros _. rewrite app_nil_r. now destruct s.
  - destruct (throws res s chunk); [discriminate|].
    intros H. rewrite (IH _ H). simpl. now rewrite <- app_assoc.
Qed.

(** What a tick makes of one registered response, given the state the tick
    finds it in. *)
Definition served (frame : Buffer) (res : nat) (s : Sink) : Sink :=
  let r := sink_write_all res (wire_chunks frame) s in
  if snd r then fst r else {| written := written (fst r); ended := true |}.

Definition delivered (frame : Buffer) (res : nat) (s : Sink) : bool :=
  snd (sink_write_all res (wire_chunks frame) s).

Lemma tick_client_spec (frame : Buffer) (st : Server) (res : nat) :
  cache (tick_client throws frame st res) = cache st
  /\ mjpegClients (tick_client throws frame st res)
     = (if delivered frame res (sink_of (responses st) res)
        then mjpegClients st else unregister res (mjpegClients st))
  /\ forall res' : nat,
      sink_of (responses (tick_client throws frame st res)) res'
      = if decide (res = res')
        then served frame res (sink_of (responses st) res)
        else sink_of (responses st) res'.
Proof.
  unfold tick_client, writeFrameTo, served, delivered.
  destruct (write_all_sink res (wire_chunks frame) (responses st)) as [H1 H2].
  rewrite H1.
  destruct (snd (sink_write_all res (wire_chunks frame) (sink_of (responses st) res)));
    simpl; (split; [reflexivity|]); (split; [reflexivity|]); intros res'.
  - apply H2.
  - unfold end_. rewrite sink_of_insert, !H2.
    destruct (decide (res = res)); [|congruence].
    now destruct (decide (res = res')).
Qed.

(** The loop over a snapshot [l] of the registry without repetitions: each
    response in [l] is served once, from the state the tick found it in, and
    leaves the registry exactly when its write failed; nothing else moves. *)
Lemma tick_loop_spec (frame : Buffer) (l : list nat) (st : Server) :
  NoDup l ->
  let st' := foldl (tick_client throws frame) st l in
  cache st' = cache st
  /\ (forall res : nat,
        res ∈ mjpegClients st' <->
        res ∈ mjpegClients st
        /\ ~ (res ∈ l /\ delivered frame res (sink_of (responses st) res) = false))
  /\ (forall res : nat,
        sink_of (responses st') res
        = if decide (res ∈ l)
          then served frame res (sink_of (responses st) res)
          else sink_of (responses st) res).
Proof.
  intros Hnd. revert st. induction Hnd as [|x l Hx Hnd IH]; intros st; simpl.
  - split; [reflexivity|]. split.
    + intros res. rewrite elem_of_nil. tauto.
    + intros res. destruct (decide (res ∈ [])) as [H|]; [|reflexivity].
      now apply elem_of_nil in H.
  - destruct (tick_client_spec frame st x) as (Hc & Hm & Hs).
    destruct (IH (tick_client throws frame st x)) as (Hc' & Hm' & Hs').
    assert (Hsame : forall res, res ∈ l ->
              sink_of (responses (tick_client throws frame st x)) res
              = sink_of (responses st) res).
    { intros res Hres. rewrite Hs. destruct (decide (x = res)) as [->|]; [|reflexivity].
      contradiction. }
    split; [congruence|]. split.
    + intros res. rewrite Hm', Hm, elem_of_cons.
      split.
      * intros [Hin Hno]. split.
        -- destruct (delivered frame x (sink_of (responses st) x)); [exact Hin|].
           unfold unregister in Hin. now apply elem_of_difference in Hin as [Hin _].
        -- intros [[->|Hl] Hd].
           ++ rewrite Hd in Hin. unfold unregister in Hin.
              apply elem_of_difference in Hin as [_ Hin]. apply Hin.
              now apply elem_of_singleton.
           ++ apply Hno. split; [exact Hl|]. now rewrite Hsame.
      * intros [Hin Hno]. split.
        -- destruct (delivered frame x (sink_of (responses st) x)) eqn:Hd; [exact Hin|].
           unfold unregister. apply elem_of_difference. split; [exact Hin|].
           intros Hres. apply elem_of_singleton in Hres. subst res.
           apply Hno. split; [now left|exact Hd].
        -- intros [Hl Hd]. apply Hno. split; [now right|].
           now rewrite <- Hsame.
    + intros res. rewrite Hs'.
      destruct (decide (res ∈ l)) as [Hl|Hl].
      * rewrite Hsame by exact Hl.
        destruct (decide (res ∈ x :: l)) as [|Hn]; [reflexivity|].
        exfalso. apply Hn. now apply elem_of_cons; right.
      * rewrite Hs. destruct (decide (x = res)) as [->|Hne].
        -- destruct (decide (res ∈ res :: l)) as [|Hn]; [reflexivity|].
           exfalso. apply Hn. now apply elem_of_cons; left.
        -- destruct (decide (res ∈ x :: l)) as [Hin|]; [|reflexivity].
           apply elem_of_cons in Hin as [->|]; [congruence|contradiction].
Qed.

End TickFacts.

(** C7. In a tick that has a frame to send, a registered client whose write
    fails is taken out of the registry and [end()] is called on its response;
    every other registered client whose own writes succeed stays registered
    and has received the five chunks of this tick's frame, whatever happened
    to the failing one. Deleting a client that is not in the registry changes
    nothing, in the tick as in the [close] handler. *)
Theorem tick_isolates_failing_client
    (throws : nat -> Sink -> Chunk -> bool) (st : Server) (frame : Buffer)
    (failing : nat) :
  latestFrame (cache st) = Some frame ->
  failing ∈ mjpegClients st ->
  snd (writeFrameTo throws failing frame (responses st)) = false ->
  (failing ∉ mjpegClients (tick throws st))
  /\ ended (sink_of (responses (tick throws st)) failing) = true
  /\ (forall other : nat,
        other ∈ mjpegClients st ->
        snd (writeFrameTo throws other frame (responses st)) = true ->
        (other ∈ mjpegClients (tick throws st))
        /\ sink_of (responses (tick throws st)) other
           = {| written := written (sink_of (responses st) other) ++ wire_chunks frame;
                ended := ended (sink_of (responses st) other) |})
  /\ (forall (res : nat) (clients : gset nat),
        res ∉ clients -> unregister res clients = clients)
  /\ (forall (res : nat) (st0 : Server),
        res ∉ mjpegClients st0 -> mjpegClients (on_close res st0) = mjpegClients st0).
Proof.
  intros Hframe Hin Hfail.
  assert (Hun : forall (res : nat) (clients : gset nat),
             res ∉ clients -> unregister res clients = clients).
  { intros res clients Hres. unfold unregister. apply set_eq. intros x.
    rewrite elem_of_difference, elem_of_singleton. split; [tauto|].
    intros Hx. split; [exact Hx|]. intros ->. contradiction. }
  assert (Htick : tick throws st
                  = foldl (tick_client throws frame) st (elements (mjpegClients st))).
  { unfold tick. rewrite Hframe.
    destruct (decide (size (mjpegClients st) = 0%nat)) as [Hsz|]; [|reflexivity].
    apply size_empty_iff in Hsz. apply Hsz in Hin. now apply elem_of_empty in Hin. }
  destruct (tick_loop_spec throws frame (elements (mjpegClients st)) st
              (NoDup_elements _)) as (_ & Hm & Hs).
  rewrite <- Htick in Hm, Hs.
  assert (Hd : forall res, snd (writeFrameTo throws res frame (responses st))
                           = delivered throws frame res (sink_of (responses st) res)).
  { intros res. unfold writeFrameTo, delivered. apply write_all_sink. }
  rewrite Hd in Hfail.
  split; [|split; [|split; [|split]]].
  - rewrite Hm. intros [_ Hno]. apply Hno. split; [|exact Hfail].
    now apply elem_of_elements.
  - rewrite Hs. destruct (decide (failing ∈ elements (mjpegClients st))) as [_|Hn].
    + unfold served. unfold delivered in Hfail. now rewrite Hfail.
    + exfalso. apply Hn. now apply elem_of_elements.
  - intros other Ho Hok. rewrite Hd in Hok. split.
    + rewrite Hm. split; [exact Ho|]. intros [_ Hbad]. congruence.
    + rewrite Hs. destruct (decide (other ∈ elements (mjpegClients st))) as [_|Hn].
      * unfold served. unfold delivered in Hok. rewrite Hok.
        now apply sink_write_all_done.
      * exfalso. apply Hn. now apply elem_of_elements.
  - exact Hun.
  - intros res st0 Hres. simpl. now apply Hun.
Qed.

(** Three subscribers: writes to the second throw from the frame's bytes on. *)
Definition flaky (res : nat) (s : Sink) (chunk : Chunk) : bool :=
  Nat.eqb res 2 && match chunk with Payload _ => true | _ => false end.

Definition three_clients : Server :=
  {| cache := warm_cache;
     tcpClients := ∅;
     mjpegClients := {[1%nat; 2%nat; 3%nat]};
     responses := ∅ |}.

Lemma tick_isolates_failing_client_witness :
  (2%nat ∉ mjpegClients (tick flaky three_clients))
  /\ ended (sink_of (responses (tick flaky three_clients)) 2%nat) = true
  /\ (1%nat ∈ mjpegClients (tick flaky three_clients))
  /\ written (sink_of (responses (tick flaky three_clients)) 3%nat)
     = wire_chunks (repeat x07 200).
Proof.
  assert (H1 : 1%nat ∈ mjpegClients three_clients) by (vm_compute; reflexivity).
  assert (H2 : 2%nat ∈ mjpegClients three_clients) by (vm_compute; reflexivity).
  assert (H3 : 3%nat ∈ mjpegClients three_clients) by (vm_compute; reflexivity).
  destruct (tick_isolates_failing_client flaky three_clients (repeat x07 200) 2%nat
              eq_refl H2 eq_refl) as (Hout & Hend & Hothers & _).
  split; [exact Hout|]. split; [exact Hend|]. split.
  - now apply Hothers.
  - destruct (Hothers 3%nat H3 eq_refl) as [_ ->]. reflexivity.
Defined.

(** C6. The broadcast callback runs every [max(1, floor(1000 / EMIT_FPS))]
    milliseconds, for every setting of the rate, and never more often than
    once a millisecond: the delay handed to [setInterval] is
    [floor(1000 / EMIT_FPS)] with [EMIT_FPS >= 1], which is that number up to
    1000 frames a second and 0 above, where the timer runs at 1 ms. *)
Theorem broadcast_period (env : option Z) :
  period env = Z.max 1 (1000 / EMIT_FPS env)
  /\ 1 <= period env
  /\ 1 <= EMIT_FPS env
  /\ interval_arg env = (if EMIT_FPS env <=? 1000 then period env else 0).
Proof.
  unfold period, timer_delay, interval_arg.
  assert (H1 : 1 <= EMIT_FPS env) by (unfold EMIT_FPS; lia).
  assert (H0 : 0 <= 1000 / EMIT_FPS env) by (apply Z.div_pos; lia).
  assert (Hle : 1000 / EMIT_FPS env <= 1000)
    by (apply Z.div_le_upper_bound; nia).
  destruct (Z.leb_spec (EMIT_FPS env) 1000) as [Hs|Hs].
  - assert (1 <= 1000 / EMIT_FPS env) by (apply Z.div_le_lower_bound; lia).
    destruct (Z.ltb_spec (1000 / EMIT_FPS env) 1); [lia|].
    destruct (Z.gtb_spec (1000 / EMIT_FPS env) 2147483647); [lia|].
    simpl. lia.
  - rewrite (Z.div_small 1000 (EMIT_FPS env)) by lia. simpl. lia.
Qed.

(** *** The cache and what [/stats] reports *)

(** With a frame in the cache, [bytesLastFrame] is its length and at least
    one frame was counted. *)
Definition cache_coherent (c : Cache) : Prop :=
  match latestFrame c with
  | Some frame => bytesLastFrame c = len frame /\ 1 <= framesReceived c
  | None => True
  end.

Lemma handleFrame_coherent (frame : option Buffer) (c : Cache) :
  0 <= framesReceived c -> cache_coherent c ->
  cache_coherent (handleFrame frame c) /\ 0 <= framesReceived (handleFrame frame c).
Proof.
  intros H0 Hc. unfold handleFrame. destruct frame as [f|]; [|now split].
  destruct (len f <? 128); [now split|].
  unfold cache_coherent. simpl. lia.
Qed.

Lemma handleFrame_calls_coherent (calls : list (option Buffer)) (c : Cache) :
  0 <= framesReceived c -> cache_coherent c ->
  cache_coherent (fold_left (fun c frame => handleFrame frame c) calls c).
Proof.
  revert c. induction calls as [|frame calls IH]; intros c H0 Hc; simpl; [exact Hc|].
  destruct (handleFrame_coherent frame c H0 Hc) as [Hc' H0'].
  now apply IH.
Qed.

(** C9. With [latestFrame] non-null, [bytesLastFrame] is the length of
    [latestFrame] and [framesReceived] is at least 1: this holds at start-up,
    every call of [handleFrame] keeps it (the counter, which starts at 0 and
    only grows, is never negative), so it holds after any sequence of calls,
    and the last-frame size in a [/stats] answer is the size of the frame in
    the cache. *)
Theorem cache_counters_describe_latest_frame :
  cache_coherent empty_cache
  /\ (forall (frame : option Buffer) (c : Cache),
        0 <= framesReceived c -> cache_coherent c ->
        cache_coherent (handleFrame frame c)
        /\ 0 <= framesReceived (handleFrame frame c))
  /\ (forall calls : list (option Buffer),
        cache_coherent (fold_left (fun c frame => handleFrame frame c) calls empty_cache))
  /\ (forall (cfg : Config) (st : Server) (frame : Buffer),
        cache_coherent (cache st) -> latestFrame (cache st) = Some frame ->
        stat_bytesLastFrame (stats cfg st) = len frame
        /\ 1 <= stat_framesReceived (stats cfg st)).
Proof.
  split; [exact I|]. split; [exact handleFrame_coherent|]. split.
  - intros calls. apply handleFrame_calls_coherent; [simpl; lia|exact I].
  - intros cfg st frame Hc Hf. unfold cache_coherent in Hc. rewrite Hf in Hc.
    exact Hc.
Qed.

(** A 200-byte frame replaced by a 130-byte one, with a 5-byte frame and a
    [null] in between. *)
Lemma cache_counters_describe_latest_frame_witness :
  cache_coherent (handleFrame (Some (repeat x01 130)) warm_cache)
  /\ cache_coherent
       (fold_left (fun c frame => handleFrame frame c)
          [Some (repeat x07 200); Some [x41; x42; x43; x44; x45]; None;
           Some (repeat x01 130)] empty_cache)
  /\ stat_bytesLastFrame
       (stats {| FRAME_MODE := jpeg_markers; EMIT_FPS_setting := None |} three_clients)
     = len (repeat x07 200).
Proof.
  destruct cache_counters_describe_latest_frame as (_ & Hstep & Hcalls & Hstats).
  split; [|split].
  - apply Hstep; [simpl; lia|]. split; [reflexivity|simpl; lia].
  - apply Hcalls.
  - apply Hstats; [|reflexivity]. split; [reflexivity|simpl; lia].
Defined.

End Scheduler.

(** ** The [len-prefix] scenario *)

Definition ABCDE : Buffer := [x41; x42; x43; x44; x45].

(** C8. On a fresh connection, the bytes [00 00 00 05 'A' 'B' 'C' 'D' 'E']
    yield the single frame [ABCDE], of length 5, and leave nothing behind; the
    bytes [00 00 00 05 'A' 'B'] that follow yield no frame and leave [AB]
    buffered with [pendingLen = 5]; one or two more bytes still yield none,
    and the frame comes out when the remaining three have arrived, together
    or one by one. *)
Theorem len_prefix_scenario :
  on_chunk len_prefix new_conn [x00; x00; x00; x05; x41; x42; x43; x44; x45]
  = ([ABCDE], new_conn)
  /\ len ABCDE = 5
  /\ run len_prefix new_conn
       [[x00; x00; x00; x05; x41; x42; x43; x44; x45];
        [x00; x00; x00; x05; x41; x42]]
     = ([ABCDE], {| buffer := [x41; x42]; pendingLen := Some 5 |})
  /\ (forall x : byte,
        on_chunk len_prefix {| buffer := [x41; x42]; pendingLen := Some 5 |} [x]
        = ([], {| buffer := [x41; x42; x]; pendingLen := Some 5 |}))
  /\ (forall x y : byte,
        on_chunk len_prefix {| buffer := [x41; x42]; pendingLen := Some 5 |} [x; y]
        = ([], {| buffer := [x41; x42; x; y]; pendingLen := Some 5 |}))
  /\ on_chunk len_prefix {| buffer := [x41; x42]; pendingLen := Some 5 |}
       [x43; x44; x45]
     = ([ABCDE], new_conn)
  /\ run len_prefix {| buffer := [x41; x42]; pendingLen := Some 5 |}
       [[x43]; [x44]; [x45]]
     = ([ABCDE], new_conn).
Proof.
  repeat split; intros; vm_compute; reflexivity.
Qed.

(** ** Termination of the drain loops *)

(** A run of [for (;;) { body }] that comes to its [break]: the frames handed
    over on the way and the state at the [break]. A run that never breaks
    has no derivation. *)
Inductive loops {St : Type} (body : St -> Iter St) : St -> list Buffer -> St -> Prop :=
| loops_break (s s' : St) :
    body s = Break s' -> loops body s [] s'
| loops_continue (s s1 s' : St) (frame : Buffer) (frames : list Buffer) :
    body s = Continue s1 frame -> loops body s1 frames s' ->
    loops body s (frame :: frames) s'.

Lemma marker_drain_loops (buf : Buffer) :
  loops Marker.iter buf (fst (MarkerLoop.drain buf)) (snd (MarkerLoop.drain buf)).
Proof.
  induction buf as [buf IH] using marker_loop_ind.
  rewrite marker_drain_unfold.
  destruct (Marker.iter buf) as [b|b frame] eqn:E; simpl.
  - now apply loops_break.
  - apply loops_continue with (s1 := b); [exact E|]. exact (IH b frame eq_refl).
Qed.

Lemma len_drain_loops (c : Conn) :
  loops LenPrefix.iter c (fst (LenLoop.drain c)) (snd (LenLoop.drain c)).
Proof.
  induction c as [c IH] using len_loop_ind.
  rewrite len_drain_unfold.
  destruct (LenPrefix.iter c) as [c'|c' frame] eqn:E; simpl.
  - now apply loops_break.
  - apply loops_continue with (s1 := c'); [exact E|]. exact (IH c' frame eq_refl).
Qed.

Lemma len_iter_fresh_consumes (c c' : Conn) (frame : Buffer) :
  pendingLen c = None -> LenPrefix.iter c = Continue c' frame ->
  len (buffer c') + 4 + readUInt32BE (buffer c) = len (buffer c)
  /\ pendingLen c' = None /\ len frame = readUInt32BE (buffer c).
Proof.
  intros Hp. unfold LenPrefix.iter. rewrite Hp.
  destruct (Z.ltb_spec (len (buffer c)) 4) as [|H4]; [discriminate|].
  pose proof (readUInt32BE_range (buffer c)) as [Hn _].
  rewrite len_extract_unfold by assumption.
  rewrite slice_from_in_range by lia.
  destruct (Z.ltb_spec (len (skipn (Z.to_nat 4) (buffer c))) (readUInt32BE (buffer c)))
    as [|Hge]; [discriminate|].
  intros [= <- <-]. simpl. unfold len in *.
  rewrite length_firstn, !length_skipn in *.
  split; [lia|]. split; [reflexivity|lia].
Qed.

Lemma len_iter_pending_consumes (c c' : Conn) (frame : Buffer) (n : Z) :
  pendingLen c = Some n -> 0 <= n -> LenPrefix.iter c = Continue c' frame ->
  len (buffer c') + n = len (buffer c) /\ pendingLen c' = None /\ len frame = n.
Proof.
  intros Hp Hn. unfold LenPrefix.iter. rewrite Hp.
  rewrite len_extract_unfold by assumption.
  destruct (Z.ltb_spec (len (buffer c)) n) as [|Hge]; [discriminate|].
  intros [= <- <-]. simpl. unfold len in *.
  rewrite length_firstn, length_skipn.
  split; [lia|]. split; [reflexivity|lia].
Qed.

(** A length that stays pending after a drain is one the buffer cannot serve
    yet; in particular it is not 0. *)
Lemma len_drain_pending (c : Conn) (n : Z) :
  pendingLen (snd (LenLoop.drain c)) = Some n ->
  len (buffer (snd (LenLoop.drain c))) < n.
Proof.
  induction c as [c IH] using len_loop_ind.
  rewrite len_drain_unfold.
  destruct (LenPrefix.iter c) as [c'|c' frame] eqn:E; simpl.
  - unfold LenPrefix.iter, LenPrefix.extract in E.
    destruct (pendingLen c) as [p|] eqn:Ep.
    + destruct (Z.ltb_spec (len (buffer c)) p); [|discriminate].
      injection E as <-. simpl. intros [= <-]. assumption.
    + destruct (len (buffer c) <? 4).
      * injection E as <-. congruence.
      * destruct (Z.ltb_spec (len (slice_from (buffer c) 4)) (readUInt32BE (buffer c)));
          [|discriminate].
        injection E as <-. simpl. intros [= <-]. assumption.
  - exact (IH c' frame eq_refl).
Qed.

(** C10, as stated, fails in [len-prefix] mode: a pass that serves a length
    left pending by an earlier [data] event completes having consumed that
    many bytes only, here 2, the header having gone in the earlier event. *)
Lemma drain_pass_consumes_four_counterexample :
  snd (run len_prefix new_conn [[x00; x00; x00; x02; x41]])
  = {| buffer := [x41]; pendingLen := Some 2 |}
  /\ LenPrefix.iter {| buffer := [x41] ++ [x42]; pendingLen := Some 2 |}
     = Continue {| buffer := []; pendingLen := None |} [x41; x42]
  /\ len ([x41] ++ [x42]) - len [] = 2
  /\ ~ (len [] + 4 <= len ([x41] ++ [x42])).
Proof.
  split; [vm_compute; reflexivity|]. split; [reflexivity|].
  split; [reflexivity|]. unfold len. simpl. lia.
Qed.

(** C10, amended. Both drain loops come to their [break] from every buffer
    and every [pendingLen], a declared length of 0 included. A pass that
    completes consumes at least 4 bytes in [jpeg-markers] mode, and in
    [len-prefix] mode when it starts with [pendingLen] null: the header's 4
    plus the declared length. A pass that starts with a length [n] pending
    consumes exactly [n] bytes, which may be fewer than 4, and resets
    [pendingLen]; a length left pending by the handler is never 0. *)
Theorem drain_loops_terminate :
  (forall buf : Buffer,
      loops Marker.iter buf (fst (MarkerLoop.drain buf)) (snd (MarkerLoop.drain buf)))
  /\ (forall c : Conn,
      loops LenPrefix.iter c (fst (LenLoop.drain c)) (snd (LenLoop.drain c)))
  /\ (forall buf buf' frame : Buffer,
      Marker.iter buf = Continue buf' frame -> len buf' + 4 <= len buf)
  /\ (forall (c c' : Conn) (frame : Buffer),
      pendingLen c = None -> LenPrefix.iter c = Continue c' frame ->
      len (buffer c') + 4 + readUInt32BE (buffer c) = len (buffer c)
      /\ 0 <= readUInt32BE (buffer c) /\ pendingLen c' = None)
  /\ (forall (c c' : Conn) (frame : Buffer) (n : Z),
      pendingLen c = Some n -> 0 <= n -> LenPrefix.iter c = Continue c' frame ->
      len (buffer c') + n = len (buffer c) /\ pendingLen c' = None)
  /\ (forall (c : Conn) (n : Z),
      pendingLen (snd (LenLoop.drain c)) = Some n ->
      0 <= len (buffer (snd (LenLoop.drain c))) < n)
  /\ (forall (c c' : Conn) (frame : Buffer),
      LenPrefix.iter c = Continue c' frame ->
      (LenPrefix.measure c' < LenPrefix.measure c)%nat).
Proof.
  split; [exact marker_drain_loops|]. split; [exact len_drain_loops|].
  split; [|split; [|split; [|split]]].
  - intros buf buf' frame H. apply marker_iter_consumes in H. unfold len. lia.
  - intros c c' frame Hp H.
    destruct (len_iter_fresh_consumes c c' frame Hp H) as (H1 & H2 & _).
    pose proof (readUInt32BE_range (buffer c)). tauto.
  - intros c c' frame n Hp Hn H.
    destruct (len_iter_pending_consumes c c' frame n Hp Hn H) as (H1 & H2 & _).
    tauto.
  - intros c n H. split; [apply len_nonneg|now apply len_drain_pending].
  - exact len_iter_decreases.
Qed.

(** A zero-length frame costs its header; a pending length of 2 costs 2. *)
Lemma drain_loops_terminate_witness :
  len (buffer {| buffer := [x09]; pendingLen := None |}) + 4
    + readUInt32BE [x00; x00; x00; x00; x09]
  = len [x00; x00; x00; x00; x09]
  /\ len (buffer new_conn) + 2 = len [x41; x42]
  /\ len (buffer new_conn) + 4 <= len [xff; xd8; xff; xd9].
Proof.
  destruct drain_loops_terminate as (_ & _ & Hm & Hfresh & Hpend & _).
  split; [|split].
  - apply (Hfresh {| buffer := [x00; x00; x00; x00; x09]; pendingLen := None |}
             {| buffer := [x09]; pendingLen := None |} []); reflexivity.
  - apply (Hpend {| buffer := [x41; x42]; pendingLen := Some 2 |} new_conn [x41; x42] 2);
      [reflexivity|lia|reflexivity].
  - apply (Hm [xff; xd8; xff; xd9] [] [xff; xd8; xff; xd9]). reflexivity.
Defined.

(** * Further properties of the handlers *)

(** ** What a sequence of [handleFrame] calls leaves in the cache *)

(** The test [handleFrame] applies: [frame.length < 128] is refused. *)
Definition accepted (frame : Buffer) : bool := negb (len frame <? 128).

Definition handle_all (frames : list Buffer) (cache : Cache) : Cache :=
  fold_left (fun cache f => handleFrame (Some f) cache) frames cache.

Lemma handle_all_app (xs ys : list Buffer) (cache : Cache) :
  handle_all (xs ++ ys) cache = handle_all ys (handle_all xs cache).
Proof. unfold handle_all. apply fold_left_app. Qed.

(** X1. After any sequence of calls, [framesReceived] has grown by the number
    of frames of at least 128 bytes, and [latestFrame] and [bytesLastFrame]
    are those of the last such frame, or untouched when there was none:
    overwrite is total and the last accepted frame wins. *)
Theorem handleFrame_last_accepted_wins (frames : list Buffer) (cache : Cache) :
  framesReceived (handle_all frames cache)
  = framesReceived cache + Z.of_nat (length (filter accepted frames))
  /\ latestFrame (handle_all frames cache)
     = last (map Some (filter accepted frames)) (latestFrame cache)
  /\ bytesLastFrame (handle_all frames cache)
     = last (map len (filter accepted frames)) (bytesLastFrame cache).
Proof.
  induction frames as [|f frames IH] using rev_ind.
  - simpl. repeat split; lia.
  - rewrite handle_all_app, filter_app, !map_app, length_app.
    destruct IH as (Hn & Hl & Hb).
    assert (Hf : filter accepted [f] = if len f <? 128 then [] else [f])
      by (simpl; unfold accepted; now destruct (len f <? 128)).
    rewrite Hf.
    assert (Hh : handle_all [f] (handle_all frames cache)
                 = handleFrame (Some f) (handle_all frames cache)) by reflexivity.
    rewrite Hh. unfold handleFrame.
    destruct (len f <? 128); simpl.
    + rewrite !app_nil_r. repeat split; try assumption. lia.
    + rewrite !last_last. repeat split. lia.
Qed.

(** ** The shape of a frame cut out by markers *)

Lemma find_Some_first (pat b : Buffer) (k j : nat) :
  find pat b = Some k -> (j < k)%nat -> starts_with pat (skipn j b) = false.
Proof.
  revert k j. induction b as [|x b IH]; intros k j; [discriminate|].
  rewrite find_cons. destruct (starts_with pat (x :: b)) eqn:E.
  - intros [= <-]. lia.
  - destruct (find pat b) as [i|] eqn:Ef; simpl; [|discriminate].
    intros [= <-] Hj. destruct j as [|j]; [exact E|].
    simpl. apply (IH i); [reflexivity|lia].
Qed.

Lemma starts_with_firstn (pat l : Buffer) (n : nat) :
  (length pat <= n)%nat -> starts_with pat (firstn n l) = starts_with pat l.
Proof.
  revert l n. induction pat as [|p pat IH]; intros l n H; [reflexivity|].
  destruct n as [|n]; [simpl in H; lia|]. destruct l as [|x l]; [reflexivity|].
  simpl. rewrite IH by (simpl in H; lia). reflexivity.
Qed.

(** One completed pass: the frame runs from a start marker to the first end
    marker that begins at least two bytes later, both included. *)
Lemma marker_iter_frame (buf b frame : Buffer) :
  Marker.iter buf = Continue b frame ->
  starts_with SOI frame = true
  /\ (4 <= length frame)%nat
  /\ starts_with EOI (skipn (length frame - 2) frame) = true
  /\ forall k : nat, (2 <= k < length frame - 2)%nat ->
       starts_with EOI (skipn k frame) = false.
Proof.
  rewrite marker_iter_unfold.
  destruct (find SOI buf) as [s|] eqn:Es; [|discriminate].
  destruct (find EOI (skipn (s + 2) buf)) as [e|] eqn:Ee; [|discriminate].
  intros [= _ <-]. change (S (S (e + 2))) with (2 + e + 2)%nat.
  pose proof (find_Some_bound _ _ _ Es) as Hs. change (length SOI) with 2%nat in Hs.
  pose proof (find_Some_bound _ _ _ Ee) as He. change (length EOI) with 2%nat in He.
  rewrite length_skipn in He.
  assert (Hl : length (firstn (2 + e + 2) (skipn s buf)) = (e + 4)%nat)
    by (rewrite length_firstn, length_skipn; lia).
  rewrite Hl. split; [|split; [lia|split]].
  - rewrite starts_with_firstn by (simpl; lia). now apply find_Some_lt.
  - replace (e + 4 - 2)%nat with (e + 2)%nat by lia.
    rewrite skipn_firstn_comm, skipn_skipn.
    rewrite starts_with_firstn by (simpl; lia).
    replace (e + 2 + s)%nat with (e + (s + 2))%nat by lia.
    rewrite <- skipn_skipn. now apply find_Some_lt.
  - intros k Hk. rewrite skipn_firstn_comm, skipn_skipn.
    rewrite starts_with_firstn by (simpl; lia).
    replace (k + s)%nat with ((k - 2) + (s + 2))%nat by lia.
    rewrite <- skipn_skipn. apply (find_Some_first _ _ e); [exact Ee|lia].
Qed.

(** X2. Every frame the [jpeg-markers] loop hands to [handleFrame] begins
    with [FF D8], ends with [FF D9], is at least 4 bytes long, and holds no
    other [FF D9] from its third byte on: it stops at the first end marker
    behind its start marker. *)
Theorem marker_frame_shape (buf frame : Buffer) :
  In frame (fst (MarkerLoop.drain buf)) ->
  starts_with SOI frame = true
  /\ 4 <= len frame
  /\ starts_with EOI (skipn (length frame - 2) frame) = true
  /\ forall k : nat, (2 <= k < length frame - 2)%nat ->
       starts_with EOI (skipn k frame) = false.
Proof.
  induction buf as [buf IH] using marker_loop_ind.
  rewrite marker_drain_unfold.
  destruct (Marker.iter buf) as [b|b f] eqn:E; simpl; [tauto|].
  intros [<-|Hin].
  - destruct (marker_iter_frame _ _ _ E) as (H1 & H2 & H3 & H4).
    unfold len. repeat split; try assumption. lia.
  - exact (IH b f eq_refl Hin).
Qed.

(** Two frames with bytes between and behind them; the second one carries a
    start marker inside. *)
Lemma marker_frame_shape_witness :
  starts_with SOI [xff; xd8; xff; xd8; x01; xff; xd9] = true
  /\ 4 <= len [xff; xd8; xff; xd8; x01; xff; xd9].
Proof.
  destruct (marker_frame_shape
              ([x00; xff; xd8; x02; xff; xd9; x03]
               ++ [xff; xd8; xff; xd8; x01; xff; xd9; xff])
              [xff; xd8; xff; xd8; x01; xff; xd9]) as (H1 & H2 & _).
  - vm_compute. right. left. reflexivity.
  - split; assumption.
Defined.

(** ** What the [jpeg-markers] loop leaves in the buffer *)

Lemma find_None_skipn (pat b : Buffer) (k : nat) :
  find pat b = None -> find pat (skipn k b) = None.
Proof.
  revert k. induction b as [|x b IH]; intros k H; [now rewrite skipn_nil|].
  destruct k as [|k]; [exact H|]. simpl skipn. apply IH.
  rewrite find_cons in H. destruct (starts_with pat (x :: b)); [discriminate|].
  now destruct (find pat b).
Qed.

(** The buffer a [break] leaves breaks again at once, unchanged. *)
Lemma marker_iter_break_again (x b : Buffer) :
  Marker.iter x = Break b -> Marker.iter b = Break b.
Proof.
  intros E. pose proof E as E'. rewrite marker_iter_unfold in E'.
  destruct (find SOI x) as [s|] eqn:Es.
  - destruct (find EOI (skipn (s + 2) x)); [discriminate|]. now injection E' as <-.
  - destruct (len x >? 5 * 1024 * 1024) eqn:Hl; injection E' as <-; [|exact E].
    apply Z.gtb_lt in Hl. rewrite marker_iter_unfold, (find_None_skipn _ _ _ Es).
    assert (Hb : len (skipn (Z.to_nat (len x - 1024 * 1024)) x) = 1024 * 1024)
      by (unfold len in *; rewrite length_skipn; lia).
    rewrite Hb. reflexivity.
Qed.

Lemma marker_drain_rest_breaks (buf : Buffer) :
  Marker.iter (snd (MarkerLoop.drain buf)) = Break (snd (MarkerLoop.drain buf)).
Proof.
  induction buf as [buf IH] using marker_loop_ind.
  rewrite marker_drain_unfold.
  destruct (Marker.iter buf) as [b|b f] eqn:E; simpl.
  - now apply marker_iter_break_again with (x := buf).
  - exact (IH b f eq_refl).
Qed.

(** X3. After a [data] event in [jpeg-markers] mode, a buffer that holds no
    start marker is at most 5 MB long; a buffer that holds one has no end
    marker from two bytes behind the first start marker on, so it is a frame
    still arriving. *)
Theorem marker_buffer_after_data (c : Conn) (chunk : Buffer) :
  match find SOI (buffer (snd (on_chunk jpeg_markers c chunk))) with
  | None => len (buffer (snd (on_chunk jpeg_markers c chunk))) <= 5 * 1024 * 1024
  | Some s =>
      find EOI (skipn (s + 2) (buffer (snd (on_chunk jpeg_markers c chunk)))) = None
  end.
Proof.
  unfold on_chunk. cbn [snd buffer].
  pose proof (marker_drain_rest_breaks (buffer c ++ chunk)) as H.
  rewrite marker_iter_unfold in H.
  destruct (find SOI (snd (MarkerLoop.drain (buffer c ++ chunk)))) as [s|].
  - now destruct (find EOI (skipn (s + 2) (snd (MarkerLoop.drain (buffer c ++ chunk))))).
  - destruct (Z.gtb_spec (len (snd (MarkerLoop.drain (buffer c ++ chunk))))
                (5 * 1024 * 1024)) as [Hgt|]; [|assumption].
    injection H as H. apply (f_equal len) in H. unfold len in *.
    rewrite length_skipn in H. lia.
Qed.

(** X4. The [jpeg-markers] loop invents nothing: the buffer it leaves is the
    tail of the buffer it found, and the frames it extracted fit, one after
    the other, into the bytes in front of that tail. *)
Theorem marker_drain_conserves (buf : Buffer) :
  exists consumed : Buffer,
    buf = consumed ++ snd (MarkerLoop.drain buf)
    /\ (length (concat (fst (MarkerLoop.drain buf))) <= length consumed)%nat.
Proof.
  induction buf as [buf IH] using marker_loop_ind.
  rewrite marker_drain_unfold.
  destruct (Marker.iter buf) as [b|b f] eqn:E; simpl.
  - apply marker_iter_break in E as [->|(_ & _ & p & Hp)].
    + exists []. split; [reflexivity|simpl; lia].
    + exists p. split; [exact Hp|simpl; lia].
  - destruct (IH b f eq_refl) as (consumed & Hc & Hl).
    pose proof E as E'. rewrite marker_iter_unfold in E'.
    destruct (find SOI buf) as [s|] eqn:Es; [|discriminate].
    destruct (find EOI (skipn (s + 2) buf)) as [e|] eqn:Ee; [|discriminate].
    injection E' as Hb Hf.
    pose proof (find_Some_bound _ _ _ Ee) as He. change (length EOI) with 2%nat in He.
    rewrite length_skipn in He.
    exists (firstn (s + 2 + e + 2) buf ++ consumed). split.
    + rewrite <- app_assoc, <- Hc, <- Hb. now rewrite firstn_skipn.
    + rewrite !length_app, length_firstn, <- Hf, length_firstn, length_skipn. lia.
Qed.

(** ** A drained connection *)

Lemma marker_drain_twice (buf : Buffer) :
  MarkerLoop.drain (snd (MarkerLoop.drain buf)) = ([], snd (MarkerLoop.drain buf)).
Proof.
  rewrite (marker_drain_unfold (snd (MarkerLoop.drain buf))).
  now rewrite marker_drain_rest_breaks.
Qed.

(** X5. In either mode, a [data] event that brings no bytes to a connection
    whose handler has already run extracts nothing and leaves [buffer] and
    [pendingLen] as they are: the loop always runs until nothing more can be
    taken. *)
Theorem empty_chunk_after_data_is_noop (mode : FrameMode) (c : Conn) (chunk : Buffer) :
  conn_ok c ->
  on_chunk mode (snd (on_chunk mode c chunk)) []
  = ([], snd (on_chunk mode c chunk)).
Proof.
  intros Hc. destruct mode; unfold on_chunk; cbn [snd fst buffer pendingLen].
  - rewrite app_nil_r.
    assert (Hm : conn_ok {| buffer := buffer c ++ chunk; pendingLen := pendingLen c |})
      by exact Hc.
    pose proof (len_drain_stable _ Hm) as H.
    destruct (snd (LenLoop.drain {| buffer := buffer c ++ chunk;
                                   pendingLen := pendingLen c |})) as [b p].
    exact H.
  - rewrite app_nil_r, marker_drain_twice. reflexivity.
Qed.

Lemma empty_chunk_after_data_is_noop_witness :
  on_chunk len_prefix
    (snd (on_chunk len_prefix new_conn [x00; x00; x00; x03; x41; x42; x43; x00])) []
  = ([], snd (on_chunk len_prefix new_conn [x00; x00; x00; x03; x41; x42; x43; x00])).
Proof.
  apply empty_chunk_after_data_is_noop. exact I.
Defined.

(** ** A whole [len-prefix] stream *)

(** A header and the payload it announces. *)
Definition framed (m : Buffer * Buffer) : Prop :=
  length (fst m) = 4%nat /\ readUInt32BE (fst m) = len (snd m).

Definition on_wire (msgs : list (Buffer * Buffer)) : Buffer :=
  concat (map (fun m => fst m ++ snd m) msgs).

Lemma len_drain_on_wire (msgs : list (Buffer * Buffer)) :
  Forall framed msgs ->
  LenLoop.drain {| buffer := on_wire msgs; pendingLen := None |}
  = (map snd msgs, new_conn).
Proof.
  induction 1 as [|[hdr payload] msgs [H4 Hn] _ IH].
  - exact len_drain_new_conn.
  - unfold on_wire in *. cbn [map concat fst snd] in *.
    rewrite len_drain_unfold, <- app_assoc, len_frame_first by assumption.
    now rewrite IH.
Qed.

(** X6. Round trip of the [len-prefix] format: when the bytes received on a
    fresh connection are a sequence of 4-byte big-endian lengths, each
    followed by that many bytes, the frames extracted are exactly those
    payloads, in order, zero-length ones included, whatever the cut into
    [data] events, and the connection ends with an empty buffer and no length
    pending. *)
Theorem len_prefix_stream_round_trip
    (msgs : list (Buffer * Buffer)) (chunks : list Buffer) :
  Forall framed msgs -> concat chunks = on_wire msgs ->
  run len_prefix new_conn chunks = (map snd msgs, new_conn).
Proof.
  intros Hm Hc.
  rewrite run_len_prefix_concat by (exact I || exact len_drain_new_conn).
  rewrite Hc. unfold more, new_conn. cbn [buffer pendingLen app].
  now apply len_drain_on_wire.
Qed.

(** [AB], an empty frame and [C], cut in the middle of a header. *)
Lemma len_prefix_stream_round_trip_witness :
  run len_prefix new_conn
    [[x00; x00; x00; x02; x41; x42; x00; x00]; [x00; x00; x00; x00; x00; x01; x43]]
  = ([[x41; x42]; []; [x43]], new_conn).
Proof.
  apply (len_prefix_stream_round_trip
           [([x00; x00; x00; x02], [x41; x42]); ([x00; x00; x00; x00], []);
            ([x00; x00; x00; x01], [x43])]).
  - repeat constructor.
  - reflexivity.
Defined.

(** Bytes of the stream a connection still holds: its buffer, and the header
    already taken off it when a length is pending. *)
Definition held (c : Conn) : Z :=
  len (buffer c) + match pendingLen c with Some _ => 4 | None => 0 end.

(** Bytes of the stream that went into frames: each costs its header. *)
Definition framed_size (frames : list Buffer) : Z :=
  fold_right (fun f acc => 4 + len f + acc) 0 frames.

Lemma len_iter_accounts (c : Conn) :
  conn_ok c ->
  match LenPrefix.iter c with
  | Break c' => held c = held c'
  | Continue c' frame => held c = 4 + len frame + held c'
  end.
Proof.
  intros Hc. unfold conn_ok in Hc.
  destruct (LenPrefix.iter c) as [c'|c' frame] eqn:E.
  - unfold LenPrefix.iter, LenPrefix.extract in E. unfold held.
    destruct (pendingLen c) as [n|] eqn:Ep.
    + destruct (len (buffer c) <? n); [|discriminate]. injection E as <-. simpl. lia.
    + destruct (Z.ltb_spec (len (buffer c)) 4); [injection E as <-; now rewrite Ep|].
      destruct (len (slice_from (buffer c) 4) <? readUInt32BE (buffer c));
        [|discriminate].
      injection E as <-. simpl. rewrite slice_from_in_range by lia.
      unfold len in *. rewrite length_skipn. lia.
  - unfold held. destruct (pendingLen c) as [n|] eqn:Ep.
    + destruct (len_iter_pending_consumes c c' frame n Ep Hc E) as (H1 & -> & H3). lia.
    + destruct (len_iter_fresh_consumes c c' frame Ep E) as (H1 & -> & H3). lia.
Qed.

Lemma len_drain_accounts (c : Conn) :
  conn_ok c ->
  held c = framed_size (fst (LenLoop.drain c)) + held (snd (LenLoop.drain c)).
Proof.
  induction c as [c IH] using len_loop_ind. intros Hc.
  pose proof (len_iter_accounts c Hc) as Ha.
  pose proof (len_iter_ok c Hc) as Hok.
  rewrite len_drain_unfold.
  destruct (LenPrefix.iter c) as [c'|c' frame] eqn:E; simpl; [lia|].
  specialize (IH c' frame eq_refl Hok). lia.
Qed.

Lemma len_drain_fresh_short (c : Conn) :
  pendingLen (snd (LenLoop.drain c)) = None ->
  len (buffer (snd (LenLoop.drain c))) < 4.
Proof.
  induction c as [c IH] using len_loop_ind.
  rewrite len_drain_unfold.
  destruct (LenPrefix.iter c) as [c'|c' frame] eqn:E; simpl.
  - unfold LenPrefix.iter, LenPrefix.extract in E.
    destruct (pendingLen c) as [p|] eqn:Ep.
    + destruct (len (buffer c) <? p); [|discriminate]. injection E as <-. discriminate.
    + destruct (Z.ltb_spec (len (buffer c)) 4); [now injection E as <-|].
      destruct (len (slice_from (buffer c) 4) <? readUInt32BE (buffer c));
        [|discriminate].
      injection E as <-. discriminate.
  - exact (IH c' frame eq_refl).
Qed.

(** X7. Byte accounting in [len-prefix] mode: of the bytes a fresh connection
    has received, every one is in an extracted frame, in the 4-byte header of
    one, in the buffer, or in the header of the length still pending; none is
    dropped. What stays buffered is fewer than 4 bytes when no length is
    pending, and fewer than the pending length otherwise. *)
Theorem len_prefix_accounts_for_every_byte (chunks : list Buffer) :
  len (concat chunks)
  = framed_size (fst (run len_prefix new_conn chunks))
    + held (snd (run len_prefix new_conn chunks))
  /\ match pendingLen (snd (run len_prefix new_conn chunks)) with
     | None => len (buffer (snd (run len_prefix new_conn chunks))) < 4
     | Some n => len (buffer (snd (run len_prefix new_conn chunks))) < n
     end.
Proof.
  rewrite run_len_prefix_concat by (exact I || exact len_drain_new_conn).
  split.
  - rewrite <- len_drain_accounts by exact I.
    unfold held, more, new_conn. cbn [buffer pendingLen app]. lia.
  - destruct (pendingLen (snd (LenLoop.drain (more new_conn (concat chunks))))) as [n|] eqn:E.
    + now apply len_drain_pending.
    + now apply len_drain_fresh_short.
Qed.

Lemma handle_all_short (frames : list Buffer) (cache : Cache) :
  Forall (fun f => len f < 128) frames -> handle_all frames cache = cache.
Proof.
  induction 1 as [|f frames Hf _ IH]; [reflexivity|].
  change (handle_all (f :: frames) cache)
    with (handle_all frames (handleFrame (Some f) cache)).
  now rewrite handleFrame_short.
Qed.

(** ** More on the broadcast tick and the registry *)

Module Fanout.

Import stdpp.base stdpp.gmap.
Import Scheduler.
Local Open Scope Z_scope.

Section Ticks.

Variable throws : nat -> Sink -> Chunk -> bool.

Lemma tick_client_tcpClients (frame : Buffer) (st : Server) (res : nat) :
  tcpClients (tick_client throws frame st res) = tcpClients st.
Proof. unfold tick_client. now destruct (snd (writeFrameTo throws res frame (responses st))). Qed.

Lemma tick_loop_tcpClients (frame : Buffer) (l : list nat) (st : Server) :
  tcpClients (foldl (tick_client throws frame) st l) = tcpClients st.
Proof.
  revert st. induction l as [|x l IH]; intros st; simpl; [reflexivity|].
  now rewrite IH, tick_client_tcpClients.
Qed.

(** One tick: it either does nothing, or is the loop over the registry. *)
Lemma tick_cases (st : Server) :
  tick throws st = st
  \/ exists frame : Buffer,
       latestFrame (cache st) = Some frame
       /\ tick throws st
          = foldl (tick_client throws frame) st (elements (mjpegClients st)).
Proof.
  unfold tick. destruct (latestFrame (cache st)) as [frame|]; [|now left].
  destruct (decide (size (mjpegClients st) = 0%nat)); [now left|].
  right. now exists frame.
Qed.

Lemma tick_leaves_the_rest (st : Server) :
  cache (tick throws st) = cache st
  /\ tcpClients (tick throws st) = tcpClients st
  /\ mjpegClients (tick throws st) ⊆ mjpegClients st
  /\ forall res : nat,
       res ∉ mjpegClients st ->
       sink_of (responses (tick throws st)) res = sink_of (responses st) res.
Proof.
  destruct (tick_cases st) as [->|(frame & Hf & ->)].
  - repeat split; reflexivity.
  - destruct (tick_loop_spec throws frame (elements (mjpegClients st)) st
                (NoDup_elements _)) as (Hc & Hm & Hs).
    split; [exact Hc|]. split; [apply tick_loop_tcpClients|]. split.
    + intros res Hres. now apply Hm in Hres as [Hres _].
    + intros res Hres. rewrite Hs.
      destruct (decide (res ∈ elements (mjpegClients st))) as [Hin|]; [|reflexivity].
      apply elem_of_elements in Hin. contradiction.
Qed.

(** X8. Any number of ticks leaves the cache and the set of camera
    connections alone, never adds a client to the registry, and never calls
    [write] or [end] on a response that is not registered: a client removed
    after a failed write, or one that closed, gets nothing from later ticks. *)
Theorem ticks_touch_registered_clients_only (n : nat) (st : Server) :
  cache (Nat.iter n (tick throws) st) = cache st
  /\ tcpClients (Nat.iter n (tick throws) st) = tcpClients st
  /\ mjpegClients (Nat.iter n (tick throws) st) ⊆ mjpegClients st
  /\ forall res : nat,
       res ∉ mjpegClients st ->
       sink_of (responses (Nat.iter n (tick throws) st)) res
       = sink_of (responses st) res.
Proof.
  induction n as [|n (Hc & Ht & Hm & Hs)]; simpl.
  - repeat split; reflexivity.
  - destruct (tick_leaves_the_rest (Nat.iter n (tick throws) st))
      as (Hc' & Ht' & Hm' & Hs').
    split; [congruence|]. split; [congruence|]. split.
    + intros res Hres. apply Hm, Hm', Hres.
    + intros res Hres. rewrite Hs'; [now apply Hs|].
      intros Hin. apply Hres, Hm, Hin.
Qed.

Lemma sink_write_all_fails (res : nat) (chunks : list Chunk) (s : Sink) :
  snd (sink_write_all throws res chunks s) = false ->
  exists k : nat,
    (k < length chunks)%nat
    /\ fst (sink_write_all throws res chunks s)
       = {| written := written s ++ firstn k chunks; ended := ended s |}
    /\ throws res {| written := written s ++ firstn k chunks; ended := ended s |}
         (nth k chunks Crlf) = true.
Proof.
  revert s. induction chunks as [|chunk chunks IH]; intros s; simpl; [discriminate|].
  destruct (throws res s chunk) eqn:E.
  - intros _. exists 0%nat. simpl. rewrite app_nil_r. destruct s. simpl in *.
    split; [lia|]. split; [reflexivity|exact E].
  - intros H. destruct (IH _ H) as (k & Hk & Hfst & Hthrow). simpl in *.
    exists (S k). simpl. rewrite <- app_assoc in Hfst, Hthrow. simpl in *.
    split; [lia|]. split; assumption.
Qed.

(** X9. A client whose write fails in a tick keeps what it was sent before
    the failing call: its response holds the chunks of the frame up to the
    call that threw, none after it, and [end()] has been called on it. *)
Theorem failed_write_keeps_what_was_sent (st : Server) (frame : Buffer) (res : nat) :
  latestFrame (cache st) = Some frame ->
  res ∈ mjpegClients st ->
  snd (writeFrameTo throws res frame (responses st)) = false ->
  exists k : nat,
    (k < 5)%nat
    /\ sink_of (responses (tick throws st)) res
       = {| written := written (sink_of (responses st) res)
                       ++ firstn k (wire_chunks frame);
            ended := true |}
    /\ throws res
         {| written := written (sink_of (responses st) res)
                       ++ firstn k (wire_chunks frame);
            ended := ended (sink_of (responses st) res) |}
         (nth k (wire_chunks frame) Crlf) = true.
Proof.
  intros Hframe Hin Hfail.
  assert (Hd : delivered throws frame res (sink_of (responses st) res) = false).
  { unfold delivered. unfold writeFrameTo in Hfail.
    now rewrite <- (proj1 (write_all_sink throws res _ _)). }
  assert (Ht : tick throws st
               = foldl (tick_client throws frame) st (elements (mjpegClients st))).
  { unfold tick. rewrite Hframe.
    destruct (decide (size (mjpegClients st) = 0%nat)) as [Hsz|]; [|reflexivity].
    apply size_empty_iff in Hsz. apply Hsz in Hin. now apply elem_of_empty in Hin. }
  destruct (tick_loop_spec throws frame (elements (mjpegClients st)) st
              (NoDup_elements _)) as (_ & _ & Hs).
  rewrite <- Ht in Hs. rewrite Hs.
  destruct (decide (res ∈ elements (mjpegClients st))) as [_|Hn];
    [|exfalso; apply Hn; now apply elem_of_elements].
  destruct (sink_write_all_fails res (wire_chunks frame) _ Hd)
    as (k & Hk & Hfst & Hthrow).
  exists k. split; [exact Hk|]. split; [|exact Hthrow].
  unfold served. unfold delivered in Hd. rewrite Hd, Hfst. reflexivity.
Qed.

End Ticks.

(** Writes to the second of three subscribers throw at the frame's bytes:
    the three header chunks stay written. *)
Lemma failed_write_keeps_what_was_sent_witness :
  exists k : nat,
    (k < 5)%nat
    /\ sink_of (responses (tick flaky three_clients)) 2%nat
       = {| written := written (sink_of (responses three_clients) 2%nat)
                       ++ firstn k (wire_chunks (repeat x07 200));
            ended := true |}
    /\ flaky 2%nat
         {| written := written (sink_of (responses three_clients) 2%nat)
                       ++ firstn k (wire_chunks (repeat x07 200));
            ended := ended (sink_of (responses three_clients) 2%nat) |}
         (nth k (wire_chunks (repeat x07 200)) Crlf) = true.
Proof.
  apply (failed_write_keeps_what_was_sent flaky three_clients (repeat x07 200) 2%nat).
  - reflexivity.
  - vm_compute. reflexivity.
  - reflexivity.
Defined.

(** *** From camera bytes to the clients *)

(** [data] events of one camera connection, one after the other, as the
    server sees them. *)
Fixpoint feed (cfg : Config) (st : Server) (c : Conn) (chunks : list Buffer)
  : Conn * Server :=
  match chunks with
  | [] => (c, st)
  | chunk :: chunks' =>
      let r := on_camera_data cfg st c chunk in
      feed cfg (snd r) (fst r) chunks'
  end.

Lemma feed_spec (cfg : Config) (chunks : list Buffer) (st : Server) (c : Conn) :
  fst (feed cfg st c chunks) = snd (run (FRAME_MODE cfg) c chunks)
  /\ cache (snd (feed cfg st c chunks))
     = handle_all (fst (run (FRAME_MODE cfg) c chunks)) (cache st)
  /\ tcpClients (snd (feed cfg st c chunks)) = tcpClients st
  /\ mjpegClients (snd (feed cfg st c chunks)) = mjpegClients st
  /\ responses (snd (feed cfg st c chunks)) = responses st.
Proof.
  revert st c. induction chunks as [|chunk chunks IH]; intros st c.
  - simpl. repeat split; reflexivity.
  - cbn [feed run]. destruct (IH (snd (on_camera_data cfg st c chunk))
                               (fst (on_camera_data cfg st c chunk)))
      as (H1 & H2 & H3 & H4 & H5).
    unfold on_camera_data, on_data in *. cbn [fst snd cache tcpClients mjpegClients responses] in *.
    rewrite H1, H2, H3, H4, H5, handle_all_app. repeat split; reflexivity.
Qed.

(** X10. One camera connection and the clients: whatever the bytes, the
    [data] events of a connection change nothing of the server but the cache,
    which ends as [handleFrame] applied to the extracted frames in order,
    and leave the connection as the handler alone would; both registries and
    every response stay as they are. As long as the server has cached
    nothing and every frame extracted is shorter than 128 bytes, a tick then
    sends nothing to anyone and removes no client. *)
Theorem nothing_sent_before_first_accepted_frame
    (throws : nat -> Sink -> Chunk -> bool) (cfg : Config) (st : Server)
    (c : Conn) (chunks : list Buffer) :
  fst (feed cfg st c chunks) = snd (run (FRAME_MODE cfg) c chunks)
  /\ cache (snd (feed cfg st c chunks))
     = handle_all (fst (run (FRAME_MODE cfg) c chunks)) (cache st)
  /\ tcpClients (snd (feed cfg st c chunks)) = tcpClients st
  /\ mjpegClients (snd (feed cfg st c chunks)) = mjpegClients st
  /\ responses (snd (feed cfg st c chunks)) = responses st
  /\ (latestFrame (cache st) = None ->
      Forall (fun f => len f < 128) (fst (run (FRAME_MODE cfg) c chunks)) ->
      cache (snd (feed cfg st c chunks)) = cache st
      /\ tick throws (snd (feed cfg st c chunks)) = snd (feed cfg st c chunks)
      /\ responses (tick throws (snd (feed cfg st c chunks))) = responses st
      /\ mjpegClients (tick throws (snd (feed cfg st c chunks))) = mjpegClients st).
Proof.
  destruct (feed_spec cfg chunks st c) as (Hconn & Hc & Htcp & Hm & Hr).
  split; [exact Hconn|]. split; [exact Hc|]. split; [exact Htcp|].
  split; [exact Hm|]. split; [exact Hr|].
  intros Hnone Hshort.
  assert (Hsame : cache (snd (feed cfg st c chunks)) = cache st)
    by (rewrite Hc; now apply handle_all_short).
  assert (Ht : tick throws (snd (feed cfg st c chunks)) = snd (feed cfg st c chunks))
    by (unfold tick; now rewrite Hsame, Hnone).
  rewrite Ht. repeat split; assumption.
Qed.

Definition markers_cfg : Config :=
  {| FRAME_MODE := jpeg_markers; EMIT_FPS_setting := None |}.

Definition waiting : Server :=
  {| cache := empty_cache;
     tcpClients := {[7%nat]};
     mjpegClients := {[1%nat; 2%nat]};
     responses := ∅ |}.

(** Two subscribers waiting. A camera that sends a 134-byte frame in two
    pieces fills the cache and nothing else; one that sends a 6-byte frame
    leaves the cache empty, and the tick that follows sends nothing. *)
Lemma nothing_sent_before_first_accepted_frame_witness :
  cache (snd (feed markers_cfg waiting new_conn [SOI ++ repeat x01 130; EOI ++ [x09]]))
  = {| latestFrame := Some (SOI ++ repeat x01 130 ++ EOI);
       framesReceived := 1; bytesLastFrame := 134 |}
  /\ fst (feed markers_cfg waiting new_conn [SOI ++ repeat x01 130; EOI ++ [x09]])
     = {| buffer := [x09]; pendingLen := None |}
  /\ tcpClients (snd (feed markers_cfg waiting new_conn
                        [SOI ++ repeat x01 130; EOI ++ [x09]]))
     = tcpClients waiting
  /\ tick flaky (snd (feed markers_cfg waiting new_conn [[xff; xd8; x01]; [x02; xff; xd9]]))
     = snd (feed markers_cfg waiting new_conn [[xff; xd8; x01]; [x02; xff; xd9]])
  /\ responses (tick flaky
       (snd (feed markers_cfg waiting new_conn [[xff; xd8; x01]; [x02; xff; xd9]])))
     = responses waiting.
Proof.
  destruct (nothing_sent_before_first_accepted_frame flaky markers_cfg waiting
              new_conn [SOI ++ repeat x01 130; EOI ++ [x09]])
    as (Hconn & Hcache & Htcp & _).
  destruct (nothing_sent_before_first_accepted_frame flaky markers_cfg waiting
              new_conn [[xff; xd8; x01]; [x02; xff; xd9]])
    as (_ & _ & _ & _ & _ & Hquiet).
  split; [rewrite Hcache; vm_compute; reflexivity|].
  split; [rewrite Hconn; vm_compute; reflexivity|].
  split; [exact Htcp|].
  destruct Hquiet as (_ & H1 & H2 & _).
  - reflexivity.
  - vm_compute. repeat constructor.
  - split; assumption.
Defined.

(** *** Subscribing and leaving *)

(** The [GET /stream.mjpg] handler: the status line and headers go out and
    the response joins the registry; nothing of the body is written. *)
Definition subscribe (res : nat) (st : Server) : Server :=
  {| cache := cache st;
     tcpClients := tcpClients st;
     mjpegClients := register res (mjpegClients st);
     responses := responses st |}.

Lemma end_twice (res : nat) (rs : gmap nat Sink) :
  end_ res (end_ res rs) = end_ res rs.
Proof.
  unfold end_. rewrite sink_of_insert.
  destruct (decide (res = res)); [|congruence]. simpl.
  apply insert_insert_eq.
Qed.

(** X11. The [close] handler run twice is the [close] handler run once, for
    any client, registered or not; after it the client is out of the registry
    and [end()] has been called on its response. Subscribing twice registers
    once, and subscribing writes no part of the body. For a client that was
    not registered, subscribing counts it in [/stats], and subscribing and
    then closing leaves the registry and the count as they were. *)
Theorem subscribe_then_close :
  (forall (res : nat) (st : Server),
      on_close res (on_close res st) = on_close res st)
  /\ (forall (res : nat) (st : Server),
      (res ∉ mjpegClients (on_close res st))
      /\ ended (sink_of (responses (on_close res st)) res) = true
      /\ written (sink_of (responses (on_close res st)) res)
         = written (sink_of (responses st) res))
  /\ (forall (res : nat) (st : Server),
      subscribe res (subscribe res st) = subscribe res st)
  /\ (forall (res : nat) (st : Server),
      (res ∈ mjpegClients (subscribe res st))
      /\ responses (subscribe res st) = responses st)
  /\ (forall (cfg : Config) (res : nat) (st : Server),
      res ∉ mjpegClients st ->
      mjpegClients (on_close res (subscribe res st)) = mjpegClients st
      /\ stat_mjpegClients (stats cfg (subscribe res st))
         = S (stat_mjpegClients (stats cfg st))
      /\ stat_mjpegClients (stats cfg (on_close res (subscribe res st)))
         = stat_mjpegClients (stats cfg st)).
Proof.
  split; [|split; [|split; [|split]]].
  - intros res st. unfold on_close, unregister. simpl. rewrite end_twice. f_equal.
    apply set_eq. intros x. rewrite !elem_of_difference, elem_of_singleton. tauto.
  - intros res st. unfold on_close, unregister, end_. simpl.
    rewrite sink_of_insert. destruct (decide (res = res)); [|congruence]. simpl.
    split; [|split; reflexivity].
    rewrite elem_of_difference, elem_of_singleton. tauto.
  - intros res st. unfold subscribe, register. simpl. f_equal.
    apply set_eq. intros x. rewrite !elem_of_union, elem_of_singleton. tauto.
  - intros res st. split; [|reflexivity].
    unfold subscribe, register. simpl. apply elem_of_union. left.
    now apply elem_of_singleton.
  - intros cfg res st Hres.
    assert (Hback : unregister res (register res (mjpegClients st)) = mjpegClients st).
    { unfold unregister, register. apply set_eq. intros x.
      rewrite elem_of_difference, elem_of_union, !elem_of_singleton.
      split; [intros [[->|Hx] Hne]; [congruence|exact Hx]|].
      intros Hx. split; [now right|]. intros ->. contradiction. }
    split; [exact Hback|]. split.
    + unfold stats, subscribe, register. simpl.
      rewrite size_union by (apply disjoint_singleton_l; exact Hres).
      now rewrite size_singleton.
    + unfold stats, on_close. simpl. now rewrite Hback.
Qed.

(** The second of the three subscribers closes twice; a fourth one
    subscribes and closes. *)
Lemma subscribe_then_close_witness :
  on_close 2%nat (on_close 2%nat three_clients) = on_close 2%nat three_clients
  /\ (2%nat ∉ mjpegClients (on_close 2%nat three_clients))
  /\ mjpegClients (on_close 5%nat (subscribe 5%nat three_clients))
     = mjpegClients three_clients
  /\ stat_mjpegClients (stats markers_cfg (subscribe 5%nat three_clients)) = 4%nat.
Proof.
  destruct subscribe_then_close as (Htwice & Hclose & _ & _ & Hround).
  split; [apply Htwice|]. split; [apply Hclose|].
  destruct (Hround markers_cfg 5%nat three_clients) as (H1 & H2 & _).
  - vm_compute. discriminate.
  - split; [exact H1|]. rewrite H2. vm_compute. reflexivity.
Defined.

(** *** A client whose writes never fail *)

Lemma tick_delivers (throws : nat -> Sink -> Chunk -> bool) (st : Server)
    (frame : Buffer) (res : nat) :
  latestFrame (cache st) = Some frame ->
  res ∈ mjpegClients st ->
  (forall (s : Sink) (chunk : Chunk), throws res s chunk = false) ->
  res ∈ mjpegClients (tick throws st)
  /\ sink_of (responses (tick throws st)) res
     = {| written := written (sink_of (responses st) res) ++ wire_chunks frame;
          ended := ended (sink_of (responses st) res) |}.
Proof.
  intros Hframe Hin Hok.
  assert (Hd : forall s, delivered throws frame res s = true).
  { intros s. unfold delivered, wire_chunks. simpl. now rewrite !Hok. }
  assert (Ht : tick throws st
               = foldl (tick_client throws frame) st (elements (mjpegClients st))).
  { unfold tick. rewrite Hframe.
    destruct (decide (size (mjpegClients st) = 0%nat)) as [Hsz|]; [|reflexivity].
    apply size_empty_iff in Hsz. apply Hsz in Hin. now apply elem_of_empty in Hin. }
  destruct (tick_loop_spec throws frame (elements (mjpegClients st)) st
              (NoDup_elements _)) as (_ & Hm & Hs).
  rewrite <- Ht in Hm, Hs. split.
  - apply Hm. split; [exact Hin|]. intros [_ Hbad]. rewrite Hd in Hbad. discriminate.
  - rewrite Hs. destruct (decide (res ∈ elements (mjpegClients st))) as [_|Hn];
      [|exfalso; apply Hn; now apply elem_of_elements].
    unfold served. specialize (Hd (sink_of (responses st) res)).
    unfold delivered in Hd. rewrite Hd. now apply sink_write_all_done.
Qed.

Lemma ticks_cache (throws : nat -> Sink -> Chunk -> bool) (n : nat) (st : Server) :
  cache (Nat.iter n (tick throws) st) = cache st.
Proof.
  induction n as [|n IH]; [reflexivity|].
  change (Nat.iter (S n) (tick throws) st)
    with (tick throws (Nat.iter n (tick throws) st)).
  now rewrite (proj1 (tick_leaves_the_rest throws _)).
Qed.

Lemma concat_repeat_snoc {A : Type} (w : list A) (n : nat) :
  concat (repeat w n) ++ w = concat (repeat w (S n)).
Proof.
  induction n as [|n IH]; simpl; [now rewrite app_nil_r|].
  simpl in IH. now rewrite <- app_assoc, IH.
Qed.

(** X12. A registered client whose writes never throw gets exactly one part
    per tick, the frame cached at that time: after [n] ticks with no camera
    data in between it has received [n] copies of the five chunks of the
    cached frame and is still registered, whatever happens to other
    clients. *)
Theorem healthy_client_gets_one_part_per_tick
    (throws : nat -> Sink -> Chunk -> bool) (n : nat) (st : Server)
    (frame : Buffer) (res : nat) :
  latestFrame (cache st) = Some frame ->
  res ∈ mjpegClients st ->
  (forall (s : Sink) (chunk : Chunk), throws res s chunk = false) ->
  res ∈ mjpegClients (Nat.iter n (tick throws) st)
  /\ sink_of (responses (Nat.iter n (tick throws) st)) res
     = {| written := written (sink_of (responses st) res)
                     ++ concat (repeat (wire_chunks frame) n);
          ended := ended (sink_of (responses st) res) |}.
Proof.
  intros Hframe Hin Hok. induction n as [|n [IHin IHs]].
  - simpl. rewrite app_nil_r. split; [exact Hin|]. now destruct (sink_of (responses st) res).
  - assert (Hc : latestFrame (cache (Nat.iter n (tick throws) st)) = Some frame).
    { rewrite ticks_cache. exact Hframe. }
    destruct (tick_delivers throws _ frame res Hc IHin Hok) as [H1 H2].
    change (Nat.iter (S n) (tick throws) st)
      with (tick throws (Nat.iter n (tick throws) st)).
    split; [exact H1|].
    rewrite H2, IHs. cbn [written ended]. f_equal.
    rewrite <- app_assoc. f_equal. apply concat_repeat_snoc.
Qed.

(** The first of the three subscribers over two ticks, while the second one
    fails and is dropped in the first. *)
Lemma healthy_client_gets_one_part_per_tick_witness :
  written (sink_of (responses (Nat.iter 2 (tick flaky) three_clients)) 1%nat)
  = wire_chunks (repeat x07 200) ++ wire_chunks (repeat x07 200).
Proof.
  destruct (healthy_client_gets_one_part_per_tick flaky 2 three_clients
              (repeat x07 200) 1%nat) as [_ H].
  - reflexivity.
  - vm_compute. reflexivity.
  - intros s chunk. reflexivity.
  - rewrite H. reflexivity.
Defined.

(** *** Shutdown *)

(** [shutdown()], as far as responses go: [r.end()] for every registered
    response, errors swallowed; the camera sockets it destroys are returned
    beside the server. Neither registry is emptied. *)
Definition shutdown (st : Server) : Server * gset nat :=
  ({| cache := cache st;
      tcpClients := tcpClients st;
      mjpegClients := mjpegClients st;
      responses := foldl (fun rs r => end_ r rs) (responses st)
                         (elements (mjpegClients st)) |},
   tcpClients st).

Lemma end_all_spec (l : list nat) (rs : gmap nat Sink) (res : nat) :
  sink_of (foldl (fun rs r => end_ r rs) rs l) res
  = {| written := written (sink_of rs res);
       ended := if decide (res ∈ l) then true else ended (sink_of rs res) |}.
Proof.
  revert rs. induction l as [|x l IH]; intros rs; simpl.
  - destruct (decide (res ∈ [])) as [H|]; [now apply elem_of_nil in H|].
    now destruct (sink_of rs res).
  - rewrite IH. unfold end_ at 1 2. rewrite sink_of_insert.
    destruct (decide (x = res)) as [->|Hne]; simpl.
    + destruct (decide (res ∈ res :: l)) as [_|Hn];
        [|exfalso; apply Hn; now apply elem_of_cons; left].
      now destruct (decide (res ∈ l)).
    + destruct (decide (res ∈ l)) as [Hl|Hl];
        destruct (decide (res ∈ x :: l)) as [Hxl|Hxl]; try reflexivity.
      * exfalso. apply Hxl. now apply elem_of_cons; right.
      * apply elem_of_cons in Hxl as [->|]; [congruence|contradiction].
Qed.

(** X13. Shutdown calls [end()] on every registered streaming response and
    on no other, writes nothing to any response, destroys exactly the
    registered camera sockets, and leaves both registries and the cache as
    they are. *)
Theorem shutdown_ends_registered_clients (st : Server) :
  (forall res : nat,
      sink_of (responses (fst (shutdown st))) res
      = {| written := written (sink_of (responses st) res);
           ended := if decide (res ∈ mjpegClients st) then true
                    else ended (sink_of (responses st) res) |})
  /\ snd (shutdown st) = tcpClients st
  /\ mjpegClients (fst (shutdown st)) = mjpegClients st
  /\ tcpClients (fst (shutdown st)) = tcpClients st
  /\ cache (fst (shutdown st)) = cache st.
Proof.
  split; [|repeat split; reflexivity].
  intros res. unfold shutdown. cbn [fst responses]. rewrite end_all_spec.
  f_equal. destruct (decide (res ∈ elements (mjpegClients st))) as [H|H];
    destruct (decide (res ∈ mjpegClients st)) as [H'|H']; try reflexivity.
  - apply elem_of_elements in H. contradiction.
  - exfalso. apply H. now apply elem_of_elements.
Qed.

End Fanout.

(** ** The Socket.IO variant's timers *)

(** [Math.max(1, Math.floor(1000 / EMIT_FPS))] with
    [EMIT_FPS = Number(process.env.EMIT_FPS || 12)], the delay of both
    [setInterval] calls of that variant, for a whole-number rate other than
    0 (a rate of 0 makes the quotient infinite). *)
Definition sibling_interval_arg (fps : Z) : Z := Z.max 1 (1000 / fps).

(** X14. In the Socket.IO variant the delay handed to [setInterval] is
    already a number between 1 and 1000 for every non-zero whole-number rate,
    negative ones included, so the timer takes it as it is; it is 1 for a
    negative rate and for a rate above 1000, and [floor(1000 / rate)] for a
    rate from 1 to 1000. *)
Theorem sibling_interval_in_range (fps : Z) :
  fps <> 0 ->
  1 <= sibling_interval_arg fps <= 1000
  /\ Scheduler.timer_delay (sibling_interval_arg fps) = sibling_interval_arg fps
  /\ (fps < 0 \/ 1000 < fps -> sibling_interval_arg fps = 1)
  /\ (1 <= fps <= 1000 -> sibling_interval_arg fps = 1000 / fps).
Proof.
  intros Hfps. unfold sibling_interval_arg.
  assert (Hneg : fps < 0 -> 1000 / fps < 0).
  { intros H. pose proof (Z.div_mod 1000 fps Hfps).
    pose proof (Z.mod_neg_bound 1000 fps H). nia. }
  assert (Hq : 1000 / fps <= 1000).
  { destruct (Z.lt_trichotomy fps 0) as [H|[H0|Hpos]]; [|contradiction|].
    - specialize (Hneg H). lia.
    - apply Z.div_le_upper_bound; nia. }
  assert (Hr : 1 <= Z.max 1 (1000 / fps) <= 1000) by lia.
  split; [exact Hr|]. split; [|split].
  - unfold Scheduler.timer_delay.
    destruct (Z.ltb_spec (Z.max 1 (1000 / fps)) 1); [lia|].
    destruct (Z.gtb_spec (Z.max 1 (1000 / fps)) 2147483647); [lia|]. reflexivity.
  - intros [H|Hbig].
    + specialize (Hneg H). lia.
    + rewrite Z.div_small by lia. reflexivity.
  - intros Hin. assert (1 <= 1000 / fps) by (apply Z.div_le_lower_bound; lia). lia.
Qed.

Lemma sibling_interval_in_range_witness :
  1 <= sibling_interval_arg (-7) <= 1000
  /\ Scheduler.timer_delay (sibling_interval_arg (-7)) = sibling_interval_arg (-7).
Proof.
  destruct (sibling_interval_in_range (-7)) as (H1 & H2 & _); [lia|].
  split; assumption.
Defined.

(** ** The demo socket of [TCPServer.js] *)

Module Aurora.

Import Stdlib.Strings.String Stdlib.Strings.Ascii.

Definition nl : string := String (ascii_of_nat 10) EmptyString.

(** Lines [console.log] prints. *)
Inductive LogLine : Type :=
| Received (data : string)   (* "Received data:", data.toString() *)
| NewClient (socket : nat)   (* "New client connected:", address, port *)
| NoClient.                  (* "No client connected to send data." *)

(** [AuroraSocket], every [socket.write] so far (socket and text, oldest
    first), and the console. *)
Record State : Type :=
  { AuroraSocket : option nat;
    writes : list (nat * string);
    console : list LogLine }.

(** [let AuroraSocket = null] *)
Definition start : State := {| AuroraSocket := None; writes := []; console := [] |}.

Inductive Event : Type :=
| Connection (socket : nat)          (* server "connection" *)
| Data (socket : nat) (data : string) (* socket "data" *)
| Interval                            (* the [setInterval] callback *)
| SendData (data : string).           (* a call of [sendDatatoAurora] *)

Definition write (socket : nat) (text : string) (st : State) : State :=
  {| AuroraSocket := AuroraSocket st;
     writes := writes st ++ [(socket, text)];
     console := console st |}.

Definition log (line : LogLine) (st : State) : State :=
  {| AuroraSocket := AuroraSocket st;
     writes := writes st;
     console := console st ++ [line] |}.

(** [sendDatatoAurora(data)] *)
Definition sendDatatoAurora (data : string) (st : State) : State :=
  match AuroraSocket st with
  | Some socket => write socket (data ++ nl)%string st
  | None => log NoClient st
  end.

Definition step (st : State) (ev : Event) : State :=
  match ev with
  | Connection socket =>
      let st1 := write socket ("Welcome to the TCP server!" ++ nl)%string
                   (log (NewClient socket) st) in
      {| AuroraSocket := Some socket; writes := writes st1; console := console st1 |}
  | Data _ data => log (Received data) st
  | Interval =>
      match AuroraSocket st with
      | Some socket => write socket ("Jesusito" ++ nl)%string st
      | None => st
      end
  | SendData data => sendDatatoAurora data st
  end.

Definition run_events (evs : list Event) (st : State) : State := fold_left step evs st.

(** What was written to one socket, in order. *)
Definition received (socket : nat) (st : State) : list string :=
  map snd (List.filter (fun w => Nat.eqb (fst w) socket) (writes st)).

Lemma received_write (socket target : nat) (text : string) (st : State) :
  received socket (write target text st)
  = received socket st ++ (if Nat.eqb target socket then [text] else []).
Proof.
  unfold received, write. simpl. rewrite filter_app, map_app. simpl.
  now destruct (Nat.eqb target socket).
Qed.

Lemma step_other_socket (socket : nat) (st : State) (ev : Event) :
  AuroraSocket st <> Some socket -> ev <> Connection socket ->
  AuroraSocket (step st ev) <> Some socket
  /\ received socket (step st ev) = received socket st.
Proof.
  intros Hcur Hev. destruct ev as [s|s d| |d]; simpl.
  - assert (Hs : s <> socket) by congruence.
    split; [congruence|].
    change (received socket
              (write s ("Welcome to the TCP server!" ++ nl)%string (log (NewClient s) st))
            = received socket st).
    rewrite received_write. apply Nat.eqb_neq in Hs. rewrite Hs.
    now rewrite app_nil_r.
  - split; [exact Hcur|reflexivity].
  - destruct (AuroraSocket st) as [a|] eqn:Ea; [|split; [congruence|reflexivity]].
    split; [simpl; congruence|]. rewrite received_write.
    assert (Ha : a <> socket) by congruence.
    apply Nat.eqb_neq in Ha. rewrite Ha. now rewrite app_nil_r.
  - unfold sendDatatoAurora.
    destruct (AuroraSocket st) as [a|] eqn:Ea.
    + split; [simpl; congruence|]. rewrite received_write.
      assert (Ha : a <> socket) by congruence.
      apply Nat.eqb_neq in Ha. rewrite Ha. now rewrite app_nil_r.
    + split; [simpl; congruence|reflexivity].
Qed.

(** X15. Only the peer that connected last is written to: a socket that is
    not the current [AuroraSocket] receives nothing, neither from the timer
    nor from [sendDatatoAurora], until it connects again, and does not become
    the current one; so before any peer has connected nothing is written to
    any socket. *)
Theorem superseded_socket_receives_nothing
    (socket : nat) (evs : list Event) (st : State) :
  AuroraSocket st <> Some socket ->
  ~ In (Connection socket) evs ->
  received socket (run_events evs st) = received socket st
  /\ AuroraSocket (run_events evs st) <> Some socket.
Proof.
  revert st. induction evs as [|ev evs IH]; intros st Hcur Hevs.
  - split; [reflexivity|exact Hcur].
  - assert (Hev : ev <> Connection socket) by (intros ->; apply Hevs; now left).
    destruct (step_other_socket socket st ev Hcur Hev) as [Hcur' Hrec].
    destruct (IH (step st ev) Hcur') as [H1 H2].
    + intros Hin. apply Hevs. now right.
    + unfold run_events in *. simpl. split; [congruence|exact H2].
Qed.

(** Socket 1 connects, then socket 2: what follows goes to socket 2. *)
Lemma superseded_socket_receives_nothing_witness :
  received 1 (run_events [Interval; SendData "frame"%string; Interval]
                (run_events [Connection 1; Connection 2] start))
  = received 1 (run_events [Connection 1; Connection 2] start).
Proof.
  apply (superseded_socket_receives_nothing 1 [Interval; SendData "frame"%string; Interval]).
  - discriminate.
  - intros [H|[H|[H|[]]]]; discriminate.
Defined.

End Aurora.
